(** * Abundance greedy clustering (agc.py): dereplication, identity and OTU selection

    Shallow embedding of [read_fasta], [dereplication_fulllength],
    [get_identity] and [abundance_greedy_clustering] of [agc/agc.py].

    Conventions of the embedding:
    - a Python [str] is a [list ascii] (code points below 256), so that
      [zip] is [combine], [len] is [length] and [+=] is [++];
    - a Python [int] is a [Z];
    - the decompressed amplicon file is the list of its text lines
      ([read_fasta_gz] puts [gzip.open], a parameter, in front of it);
    - the [float] computed by [get_identity] is the exact rational
      [(count / min_size) * 100] in [Q]; [ZeroDivisionError] is [None];
      the binary64 computation is given beside it ([get_identity_float]) and
      compared with the rational one on the inputs of the examples;
    - [collections.Counter] is an association list in first-insertion order
      (the iteration order of a Python dict);
    - [sorted(..., reverse=True)] is a stable sort on the key;
    - [nwalign3.global_align] is not part of the repository: it is a
      parameter of the clustering section;
    - [textwrap.fill] is a parameter of the writer section; the output file
      of [write_OTU] is the text passed to [f.write], and [main] is modelled
      from the parsed arguments on. *)

From Stdlib Require Import Ascii String.
From Stdlib Require Import List ZArith QArith Qfield Bool Lia Lqa.
From Stdlib Require Import Sorting.Sorted Sorting.Permutation.
From Stdlib Require PrimFloat Uint63 DecimalString.
Import ListNotations.

Local Open Scope Z_scope.

(** ** Strings *)

Definition str := list ascii.

Definition str_eq_dec : forall a b : str, {a = b} + {a <> b} :=
  list_eq_dec ascii_dec.

Definition len (s : str) : Z := Z.of_nat (length s).

(** [str.isspace] on the code points below 256. *)
Definition isspace (c : ascii) : bool :=
  let n := nat_of_ascii c in
  (((9 <=? n) && (n <=? 13)) || ((28 <=? n) && (n <=? 32))
   || (n =? 133) || (n =? 160))%nat.

Fixpoint lstrip (s : str) : str :=
  match s with
  | [] => []
  | c :: s' => if isspace c then lstrip s' else s
  end.

Definition rstrip (s : str) : str := rev (lstrip (rev s)).

Definition strip (s : str) : str := rstrip (lstrip s).

(** [line.startswith(">")] *)
Definition startswith_gt (line : str) : bool :=
  match line with
  | [] => false
  | c :: _ => Ascii.eqb c ">"%char
  end.

(** ** read_fasta *)

(** The test [sequence and len(sequence) >= minseqlen] guarding each [yield]. *)
Definition yields (minseqlen : Z) (sequence : str) : bool :=
  match sequence with
  | [] => false
  | _ => minseqlen <=? len sequence
  end.

Definition yield_if (minseqlen : Z) (sequence : str) : list str :=
  if yields minseqlen sequence then [sequence] else [].

(** The [for line in f] loop, with the local variable [sequence] threaded
    through; the result is the list of the values yielded, in order. *)
Fixpoint read_fasta_loop (f : list str) (minseqlen : Z) (sequence : str)
  : list str :=
  match f with
  | [] => yield_if minseqlen sequence
  | line :: f' =>
      let line := strip line in
      if startswith_gt line
      then yield_if minseqlen sequence ++ read_fasta_loop f' minseqlen []
      else read_fasta_loop f' minseqlen (sequence ++ line)
  end.

Definition read_fasta (amplicon_file : list str) (minseqlen : Z) : list str :=
  read_fasta_loop amplicon_file minseqlen [].

(** ** Counter, dict comprehension and sorted *)

(** [self[elem] = self.get(elem, 0) + 1] on a dict in insertion order: an
    existing key keeps its place, a new key goes to the end. *)
Fixpoint counter_incr (elem : str) (d : list (str * Z)) : list (str * Z) :=
  match d with
  | [] => [(elem, 1)]
  | (k, n) :: d' =>
      if str_eq_dec elem k then (k, n + 1) :: d'
      else (k, n) :: counter_incr elem d'
  end.

Definition Counter (sequence_list : list str) : list (str * Z) :=
  fold_left (fun d elem => counter_incr elem d) sequence_list [].

(** Insertion of one item in a list sorted by decreasing count: the item goes
    in front of the first item whose count is not greater than its own. *)
Fixpoint insert_desc (x : str * Z) (l : list (str * Z)) : list (str * Z) :=
  match l with
  | [] => [x]
  | y :: l' => if snd x <? snd y then y :: insert_desc x l' else x :: l
  end.

(** [sorted(items, key=lambda item: item[1], reverse=True)]: items of equal
    count keep their relative order. *)
Definition sorted_by_count_desc (items : list (str * Z)) : list (str * Z) :=
  fold_right insert_desc [] items.

(** ** dereplication_fulllength *)

(** Lines 112-117: what is done with the stream of the reader. *)
Definition dereplicate (sequence_list : list str) (mincount : Z)
  : list (str * Z) :=
  let sequence_counts := Counter sequence_list in
  let filtered_sequences :=
    filter (fun item => mincount <=? snd item) sequence_counts in
  sorted_by_count_desc filtered_sequences.

Definition dereplication_fulllength (amplicon_file : list str)
  (minseqlen mincount : Z) : list (str * Z) :=
  dereplicate (read_fasta amplicon_file minseqlen) mincount.

(** ** get_identity *)

(** [sum(1 for a, b in zip(x, y) if a == b)] *)
Definition count_matches (x y : str) : Z :=
  Z.of_nat (length (filter (fun ab => Ascii.eqb (fst ab) (snd ab))
                           (combine x y))).

Definition min_size (x y : str) : Z := Z.min (len x) (len y).

Definition get_identity (alignment_list : str * str) : option Q :=
  let count := count_matches (fst alignment_list) (snd alignment_list) in
  let min_size := min_size (fst alignment_list) (snd alignment_list) in
  if min_size =? 0 then None
  else Some ((inject_Z count / inject_Z min_size) * 100)%Q.

(** The same computation on binary64 floats, as Python carries it out: both
    integers are converted, the quotient is rounded, then the product. It is
    used to check the rational model at the inputs of the examples. *)
Definition float_of_int (n : Z) : PrimFloat.float :=
  PrimFloat.of_uint63 (Uint63.of_Z n).

Definition get_identity_float (alignment_list : str * str)
  : option PrimFloat.float :=
  let count := count_matches (fst alignment_list) (snd alignment_list) in
  let min_size := min_size (fst alignment_list) (snd alignment_list) in
  if min_size =? 0 then None
  else Some (PrimFloat.mul (PrimFloat.div (float_of_int count)
                                          (float_of_int min_size))
                           (float_of_int 100)).

(** [identity > 97] *)
Definition above_threshold (identity : Q) : bool :=
  negb (Qle_bool identity 97).

(** ** abundance_greedy_clustering *)

Section Clustering.

(** [nw.global_align(a, b, gap_open=-1, gap_extend=-1, matrix=MATCH)] *)
Variable global_align : str -> str -> str * str.

(** One call of the scorer: the candidate and the representative whose
    alignment is passed to [get_identity]. *)
Definition call : Type := (str * str)%type.

Definition scored (c : call) : str * str := global_align (fst c) (snd c).

(** The inner [for otu_sequence, _ in otus_list] loop. The first component
    lists the calls of [get_identity] made, in order; the second is the
    final value of [otu_flag], or [None] when [get_identity] raised. *)
Fixpoint compare_otus (sequence : str) (otus_list : list (str * Z))
  : list call * option bool :=
  match otus_list with
  | [] => ([], Some true)
  | (otu_sequence, _) :: rest =>
      let alignment := global_align sequence otu_sequence in
      match get_identity alignment with
      | None => ([(sequence, otu_sequence)], None)
      | Some identity' =>
          if above_threshold identity'
          then ([(sequence, otu_sequence)], Some false)
          else
            let (calls, flag) := compare_otus sequence rest in
            ((sequence, otu_sequence) :: calls, flag)
      end
  end.

(** One iteration of the outer loop. *)
Definition cluster_step (otus_list : list (str * Z)) (item : str * Z)
  : list call * option (list (str * Z)) :=
  let (sequence, count) := item in
  let (calls, flag) := compare_otus sequence otus_list in
  match flag with
  | None => (calls, None)
  | Some otu_flag =>
      (calls,
       Some (if otu_flag then otus_list ++ [(sequence, count)]
             else otus_list))
  end.

(** The outer [for sequence, count in list_deraplication] loop, started
    with the OTU list [otus_list]. *)
Fixpoint cluster_loop (items : list (str * Z)) (otus_list : list (str * Z))
  : list call * option (list (str * Z)) :=
  match items with
  | [] => ([], Some otus_list)
  | item :: items' =>
      let (calls, r) := cluster_step otus_list item in
      match r with
      | None => (calls, None)
      | Some otus_list' =>
          let (calls', r') := cluster_loop items' otus_list' in
          (calls ++ calls', r')
      end
  end.

(** The identity of [sequence] against the representative [otu] is
    computed and is above 97. *)
Definition exceeds (sequence : str) (otu : str * Z) : Prop :=
  exists q, get_identity (global_align sequence (fst otu)) = Some q
            /\ (97 < q)%Q.

(** The identity of [sequence] against the representative [otu] is
    computed and is 97 or lower. *)
Definition within (sequence : str) (otu : str * Z) : Prop :=
  exists q, get_identity (global_align sequence (fst otu)) = Some q
            /\ (q <= 97)%Q.

(** The calls made when [sequence] is compared with each of [otus]. *)
Definition calls_on (sequence : str) (otus : list (str * Z)) : list call :=
  map (fun otu => (sequence, fst otu)) otus.

(** The interface of the alignment provider: both padded strings are at
    least as long as the longer of the two sequences. *)
Definition pads_to_longer : Prop :=
  forall a b,
    (Nat.max (length a) (length b) <= length (fst (global_align a b)))%nat
    /\ (Nat.max (length a) (length b)
        <= length (snd (global_align a b)))%nat.

(** An item (a candidate or a representative) whose sequence is not empty. *)
Definition nonempty_item (item : str * Z) : Prop := fst item <> [].

(** A call of the scorer that cannot divide by zero: neither sequence aligned
    is empty, neither padded string is, and [get_identity] returns a value. *)
Definition safe_call (c : call) : Prop :=
  fst c <> [] /\ snd c <> []
  /\ fst (scored c) <> [] /\ snd (scored c) <> []
  /\ get_identity (scored c) <> None.

Definition abundance_greedy_clustering_run (amplicon_file : list str)
  (minseqlen mincount chunk_size kmer_size : Z)
  : list call * option (list (str * Z)) :=
  let list_deraplication :=
    dereplication_fulllength amplicon_file minseqlen mincount in
  cluster_loop list_deraplication [].

(** The value returned ([None]: the run was aborted by an exception). *)
Definition abundance_greedy_clustering (amplicon_file : list str)
  (minseqlen mincount chunk_size kmer_size : Z)
  : option (list (str * Z)) :=
  snd (abundance_greedy_clustering_run amplicon_file minseqlen mincount
         chunk_size kmer_size).

End Clustering.

(** ** write_OTU and main *)

Definition newline : ascii := "010"%char.

(** [str(n)] of an [int], as an f-string formats it: decimal digits, with a
    minus sign in front of a negative number. *)
Definition str_of_int (n : Z) : str :=
  list_ascii_of_string (DecimalString.NilZero.string_of_int (Z.to_int n)).

(** The text of [f">OTU_{index} occurrence:{occurrence}"], without the
    newline written after it. *)
Definition otu_header_line (index occurrence : Z) : str :=
  list_ascii_of_string ">OTU_" ++ str_of_int index
  ++ list_ascii_of_string " occurrence:" ++ str_of_int occurrence.

Section Writer.

(** [textwrap.fill(text, width=...)], of the Python library. *)
Variable fill : str -> Z -> str.

(** The loop over [enumerate(OTU_list, start=index)]: the strings passed to
    [f.write], in order. *)
Fixpoint write_OTU_loop (OTU_list : list (str * Z)) (index : Z) : list str :=
  match OTU_list with
  | [] => []
  | (sequence, occurrence) :: rest =>
      let sequence_reduced := fill sequence 80 in
      (otu_header_line index occurrence ++ [newline])
        :: (sequence_reduced ++ [newline])
        :: write_OTU_loop rest (index + 1)
  end.

(** The text of the output file once it is closed. *)
Definition write_OTU (OTU_list : list (str * Z)) : str :=
  concat (write_OTU_loop OTU_list 1).

(** [main], from the parsed arguments on: the text written to the output
    file, or [None] when the clustering was aborted by an exception, in which
    case [write_OTU] is not reached. *)
Definition main (global_align : str -> str -> str * str)
  (amplicon_file : list str) (minseqlen mincount : Z) : option str :=
  match abundance_greedy_clustering global_align amplicon_file minseqlen
          mincount 0 0 with
  | None => None
  | Some list_otus => Some (write_OTU list_otus)
  end.

End Writer.

(** ** Notions used to state the properties *)

(** The positions below both lengths at which the two strings carry the same
    character. *)
Definition matching_positions (x y : str) : list nat :=
  filter (fun i => Ascii.eqb (nth i x "-"%char) (nth i y "-"%char))
         (seq 0 (Nat.min (length x) (length y))).

(** The sequence a gap-padded string comes from: its gaps removed. *)
Definition unpad (x : str) : str :=
  filter (fun c => negb (Ascii.eqb c "-"%char)) x.

(** The percent identity as the specification words it: the matching
    positions of the padded strings over the length of the shorter of the
    two sequences they were padded from. *)
Definition spec_identity (a b : str) (alignment_list : str * str) : Q :=
  (inject_Z (Z.of_nat (length (matching_positions (fst alignment_list)
                                                  (snd alignment_list))))
   / inject_Z (Z.min (len a) (len b)) * 100)%Q.

(** The number of occurrences of a sequence in a stream of sequences. *)
Definition occurrences (stream : list str) (x : str) : Z :=
  Z.of_nat (count_occ str_eq_dec stream x).

(** Decreasing counts: every item has a count at least that of each item
    after it. *)
Definition count_desc (p q : str * Z) : Prop := snd q <= snd p.

(** [a] stands somewhere before [b] in [l]. *)
Definition occurs_before {A : Type} (l : list A) (a b : A) : Prop :=
  exists p1 p2 p3, l = p1 ++ a :: p2 ++ b :: p3.

(** The first occurrence of [a] in [l] stands before the first one of [b]. *)
Definition first_occurs_before {A : Type} (l : list A) (a b : A) : Prop :=
  exists p1 p2 p3,
    l = p1 ++ a :: p2 ++ b :: p3 /\ ~ In a p1 /\ ~ In b (p1 ++ a :: p2).

(** The lines a text file gives when it is iterated over in text mode with
    universal newlines: a line ends at a line feed, at a carriage return or
    at a carriage return followed by a line feed. The terminators are left
    out, as [read_fasta] strips each line. *)
Fixpoint text_lines_loop (text line : str) : list str :=
  match text with
  | [] => match line with [] => [] | _ => [line] end
  | c :: text' =>
      if Ascii.eqb c newline then line :: text_lines_loop text' []
      else if Ascii.eqb c "013"%char then
        match text' with
        | c' :: text'' =>
            if Ascii.eqb c' newline then line :: text_lines_loop text'' []
            else line :: text_lines_loop text' []
        | [] => [line]
        end
      else text_lines_loop text' (line ++ [c])
  end.

Definition text_lines (text : str) : list str := text_lines_loop text [].

(** An ASCII letter. *)
Definition is_letter (c : ascii) : bool :=
  let n := nat_of_ascii c in
  (((65 <=? n) && (n <=? 90)) || ((97 <=? n) && (n <=? 122)))%nat.

(** A sequence made of letters only. *)
Definition letters (x : str) : Prop := Forall (fun c => is_letter c = true) x.

(** The pieces of [width] characters of a string, the last one possibly
    shorter. *)
Fixpoint chunks_loop (fuel width : nat) (x : str) : list str :=
  match fuel with
  | O => []
  | S fuel' =>
      match x with
      | [] => []
      | _ => firstn width x :: chunks_loop fuel' width (skipn width x)
      end
  end.

Definition chunks (width : nat) (x : str) : list str :=
  chunks_loop (length x) width x.

(** ["\n".join(lines)] *)
Fixpoint join_lines (lines : list str) : str :=
  match lines with
  | [] => []
  | [l] => l
  | l :: lines' => l ++ newline :: join_lines lines'
  end.

(** What [textwrap.fill] does with a word of letters: with no white space and
    no hyphen to break at, the word is cut every [width] characters. *)
Definition wraps_letters (fill : str -> Z -> str) : Prop :=
  forall x, letters x -> fill x 80 = join_lines (chunks 80 x).

(** A wrapper that cuts every string every [width] characters. *)
Definition cut_fill (x : str) (width : Z) : str :=
  join_lines (chunks (Z.to_nat width) x).

(** The sum of the counts of a list of items. *)
Definition total_count (items : list (str * Z)) : Z :=
  fold_right (fun item acc => snd item + acc) 0 items.

(** An OTU list in which each representative has, against every
    representative before it, an identity that is computed and is 97 or
    lower. *)
Definition separated (global_align : str -> str -> str * str)
  (otus : list (str * Z)) : Prop :=
  forall pre r post,
    otus = pre ++ r :: post -> Forall (within global_align (fst r)) pre.

(** The lines of the records of an OTU list numbered from [index]: for each
    representative its header line, then its sequence cut every 80
    characters. *)
Fixpoint otu_lines (OTU_list : list (str * Z)) (index : Z) : list str :=
  match OTU_list with
  | [] => []
  | (sequence, occurrence) :: rest =>
      otu_header_line index occurrence
        :: chunks 80 sequence ++ otu_lines rest (index + 1)
  end.

(** A representative whose sequence is not empty and made of letters. *)
Definition letters_item (item : str * Z) : Prop :=
  fst item <> [] /\ letters (fst item).

(** A character that ends a line. *)
Definition is_eol (c : ascii) : bool :=
  Ascii.eqb c newline || Ascii.eqb c "013"%char.

(** The records of a FASTA text, read off the format and not off the loop of
    the reader: one sequence for each header line, the concatenation of the
    stripped lines that follow it up to the next header line (empty when
    there is none), preceded by the lines in front of the first header line
    when they hold something. [split_records] goes through the lines from
    the last one and returns what stands in front of the first header line
    and the records of the header lines. *)
Fixpoint split_records (f : list str) : str * list str :=
  match f with
  | [] => ([], [])
  | line :: f' =>
      let (body, recs) := split_records f' in
      if startswith_gt (strip line) then ([], body :: recs)
      else (strip line ++ body, recs)
  end.

Definition records (f : list str) : list str :=
  let (lead, recs) := split_records f in
  match lead with
  | [] => recs
  | _ => lead :: recs
  end.

(** The greedy selection as the specification words it. A representative
    is above the threshold for a sequence when the identity of their
    alignment is above 97. *)
Definition exceeds_b (global_align : str -> str -> str * str)
  (sequence : str) (otu : str * Z) : bool :=
  match get_identity (global_align sequence (fst otu)) with
  | Some q => above_threshold q
  | None => false
  end.

(** The representatives a candidate is compared with: those of the OTU
    list, oldest first, up to and including the first one above the
    threshold. *)
Fixpoint compared_until (p : str * Z -> bool) (otus : list (str * Z))
  : list (str * Z) :=
  match otus with
  | [] => []
  | otu :: rest => if p otu then [otu] else otu :: compared_until p rest
  end.

(** A candidate is appended when no representative is above the threshold. *)
Definition greedy_step (global_align : str -> str -> str * str)
  (otus : list (str * Z)) (item : str * Z) : list (str * Z) :=
  if existsb (exceeds_b global_align (fst item)) otus then otus
  else otus ++ [item].

(** The OTU list after the candidates, taken in list order. *)
Definition greedy_otus (global_align : str -> str -> str * str)
  (items otus : list (str * Z)) : list (str * Z) :=
  fold_left (greedy_step global_align) items otus.

(** The comparisons made for the candidates, in order. *)
Fixpoint greedy_calls (global_align : str -> str -> str * str)
  (items otus : list (str * Z)) : list call :=
  match items with
  | [] => []
  | item :: rest =>
      calls_on (fst item)
               (compared_until (exceeds_b global_align (fst item)) otus)
      ++ greedy_calls global_align rest (greedy_step global_align otus item)
  end.

(** [read_fasta] on the file itself: [gzip.open(amplicon_file, "rt")], of the
    Python library, either fails or gives the lines of the decompressed
    text. *)
Definition read_fasta_gz (gzip_open_rt : list Byte.byte -> option (list str))
  (amplicon_file : list Byte.byte) (minseqlen : Z) : option (list str) :=
  match gzip_open_rt amplicon_file with
  | None => None
  | Some lines => Some (read_fasta lines minseqlen)
  end.

(** What compression and [gzip.open] do together: a compressed text opens as
    the lines of that text. *)
Definition gzip_round_trip (gzip_compress : str -> list Byte.byte)
  (gzip_open_rt : list Byte.byte -> option (list str)) : Prop :=
  forall text, gzip_open_rt (gzip_compress text) = Some (text_lines text).

(** A codec that stores the text as it is, byte for character. *)
Definition store_compress (text : str) : list Byte.byte :=
  map byte_of_ascii text.

Definition store_open_rt (file : list Byte.byte) : option (list str) :=
  Some (text_lines (map ascii_of_byte file)).

(** ** Examples of inputs *)

Definition s (x : string) : str := list_ascii_of_string x.

Definition sample_file : list str :=
  map s [">r1"; "ACGT"; "AC  "; ">r2"; "TT"; ">r3"; ">r4"; "ACGTAC";
         ">r5"; "TT"; ">r6"; "TT"; ">r7"; "GG"; ">r8"; "GG"]%string.

(** A sequence of 100 bases and one that differs from it in its last three. *)
Definition seq100 : str := repeat "A"%char 100.
Definition seq100_97 : str := repeat "A"%char 97 ++ repeat "C"%char 3.

(** A sequence that differs from [seq100] in its last base only. *)
Definition seq100_99 : str := repeat "A"%char 99 ++ repeat "G"%char 1.

(** A file of seven reads: [seq100_97] three times, [seq100] twice and
    [seq100_99] twice. *)
Definition cluster_file : list str :=
  [s ">r1"; seq100_97; s ">r2"; seq100; s ">r3"; seq100_99; s ">r4"; seq100_97;
   s ">r5"; seq100_99; s ">r6"; seq100; s ">r7"; seq100_97].

(** A file of three records, the first two of them with no sequence. *)
Definition empty_records_file : list str :=
  map s [">a"; ">b"; ">c"; "ACGT"]%string.

(** An aligner that pads the shorter sequence with gaps at its end. *)
Definition pad_align (a b : str) : str * str :=
  let n := Nat.max (length a) (length b) in
  (a ++ repeat "-"%char (n - length a), b ++ repeat "-"%char (n - length b)).

(** * Properties *)

(** ** The identity scorer *)

Lemma count_matches_positions (x y : str) :
  count_matches x y = Z.of_nat (length (matching_positions x y)).
Proof.
  unfold count_matches, matching_positions. f_equal.
  revert y. induction x as [|a x IH]; intros [|b y]; simpl; try reflexivity.
  rewrite <- seq_shift, filter_map_swap.
  destruct (Ascii.eqb a b); simpl; rewrite length_map; now rewrite IH.
Qed.

Lemma min_size_nat (x y : str) :
  min_size x y = Z.of_nat (Nat.min (length x) (length y)).
Proof. unfold min_size, len. now rewrite Nat2Z.inj_min. Qed.

Lemma count_matches_bounds (x y : str) :
  0 <= count_matches x y <= min_size x y.
Proof.
  rewrite min_size_nat. unfold count_matches. split; [lia|].
  apply inj_le. rewrite <- length_combine. apply filter_length_le.
Qed.

Lemma count_matches_self (x : str) : count_matches x x = len x.
Proof.
  unfold count_matches, len. f_equal.
  induction x as [|a x IH]; simpl; [reflexivity|].
  rewrite Ascii.eqb_refl. simpl. now rewrite IH.
Qed.

Lemma get_identity_some (x y : str) :
  min_size x y <> 0 ->
  get_identity (x, y)
  = Some (inject_Z (count_matches x y) / inject_Z (min_size x y) * 100)%Q.
Proof.
  intros H. unfold get_identity. simpl.
  destruct (Z.eqb_spec (min_size x y) 0); [contradiction|reflexivity].
Qed.

Lemma get_identity_none (x y : str) :
  get_identity (x, y) = None <-> x = [] \/ y = [].
Proof.
  unfold get_identity, min_size, len. simpl.
  destruct (Z.eqb_spec (Z.min (Z.of_nat (length x)) (Z.of_nat (length y))) 0)
    as [E|E]; split; intros H; try discriminate; try reflexivity.
  - destruct x; [now left|]. destruct y; [now right|]. simpl in E. lia.
  - exfalso. apply E. destruct H as [-> | ->]; simpl; lia.
Qed.

Lemma percent_bounds (c m : Z) :
  0 <= c <= m -> 0 < m ->
  (0 <= inject_Z c / inject_Z m * 100 <= 100)%Q.
Proof.
  intros [H0 H1] Hm.
  assert (Hm' : (0 < inject_Z m)%Q).
  { change (inject_Z 0 < inject_Z m)%Q. rewrite <- Zlt_Qlt. exact Hm. }
  assert (L : (0 <= inject_Z c / inject_Z m)%Q).
  { apply Qle_shift_div_l; [exact Hm'|]. rewrite Qmult_0_l.
    change (inject_Z 0 <= inject_Z c)%Q. rewrite <- Zle_Qle. exact H0. }
  assert (U : (inject_Z c / inject_Z m <= 1)%Q).
  { apply Qle_shift_div_r; [exact Hm'|]. rewrite Qmult_1_l.
    rewrite <- Zle_Qle. exact H1. }
  split; lra.
Qed.

Lemma above_threshold_spec (q : Q) :
  above_threshold q = true <-> (97 < q)%Q.
Proof.
  unfold above_threshold. rewrite negb_true_iff, <- not_true_iff_false.
  rewrite Qle_bool_iff. split.
  - apply Qnot_le_lt.
  - apply Qlt_not_le.
Qed.

(** C1 (as amended): the scorer returns the number of positions at which the
    two padded strings carry the same character, divided by the length of the
    shorter of the two padded strings it is given, times 100. *)
Theorem get_identity_padded_lengths (x y : str)
  (Hne : Nat.min (length x) (length y) <> 0%nat) :
  get_identity (x, y)
  = Some (inject_Z (Z.of_nat (length (matching_positions x y)))
          / inject_Z (Z.of_nat (Nat.min (length x) (length y))) * 100)%Q.
Proof.
  rewrite get_identity_some by (rewrite min_size_nat; lia).
  now rewrite count_matches_positions, min_size_nat.
Qed.

Lemma get_identity_padded_lengths_witness :
  get_identity (s "AC-T", s "ACGT") = Some (inject_Z 3 / inject_Z 4 * 100)%Q.
Proof.
  apply (get_identity_padded_lengths (s "AC-T") (s "ACGT")).
  simpl. lia.
Defined.

(** C1 (as stated) fails: "AC-T" and "ACGT" are gap-padded from "ACT" and
    "ACGT"; three positions match, the shorter sequence has length 3, so the
    stated value is 100, and the scorer returns 75. *)
Lemma get_identity_not_unpadded_length :
  ~ (forall a b x y : str,
        unpad x = a -> unpad y = b -> length x = length y ->
        a <> [] -> b <> [] ->
        exists q, get_identity (x, y) = Some q
                  /\ (q == spec_identity a b (x, y))%Q).
Proof.
  intros H.
  destruct (H (s "ACT") (s "ACGT") (s "AC-T") (s "ACGT")) as (q & Hq & E);
    try reflexivity; try discriminate.
  vm_compute in Hq. injection Hq as <-.
  vm_compute in E. discriminate.
Qed.

(** On the inputs of the examples the binary64 computation gives the values
    of the rational model: 75 for "AC-T" against "ACGT", and exactly 97, which
    is not above 97, for 97 matches over 100 positions. *)
Example get_identity_float_75 :
  get_identity_float (s "AC-T", s "ACGT") = Some (float_of_int 75).
Proof. vm_compute. reflexivity. Qed.

Example get_identity_float_97 :
  get_identity_float (pad_align seq100 seq100_97) = Some (float_of_int 97)
  /\ option_map (PrimFloat.ltb (float_of_int 97))
                (get_identity_float (pad_align seq100 seq100_97))
     = Some false.
Proof. split; vm_compute; reflexivity. Qed.

(** C5: on two padded strings of equal, non-zero length the scorer returns a
    value between 0 and 100, and on a non-empty string paired with itself it
    returns 100. *)
Theorem get_identity_bounds (x y : str)
  (Hlen : length x = length y) (Hne : x <> []) :
  (exists q, get_identity (x, y) = Some q /\ (0 <= q <= 100)%Q)
  /\ (exists q, get_identity (x, x) = Some q /\ (q == 100)%Q).
Proof.
  assert (Hx : 0 < len x) by (unfold len; destruct x; [congruence|simpl; lia]).
  split.
  - assert (Hm : 0 < min_size x y) by (unfold min_size, len in *; lia).
    eexists. split; [apply get_identity_some; lia|].
    apply percent_bounds; [apply count_matches_bounds|exact Hm].
  - assert (Hm : min_size x x = len x) by (unfold min_size; lia).
    eexists. split; [apply get_identity_some; lia|].
    rewrite count_matches_self, Hm.
    assert (N : ~ (inject_Z (len x) == 0)%Q).
    { intros E. rewrite (Zlt_Qlt 0 (len x)) in Hx.
      rewrite E in Hx. exact (Qlt_irrefl _ Hx). }
    field. exact N.
Qed.

Lemma get_identity_bounds_witness :
  (exists q, get_identity (s "AC-T", s "ACGT") = Some q /\ (0 <= q <= 100)%Q)
  /\ (exists q, get_identity (s "AC-T", s "AC-T") = Some q /\ (q == 100)%Q).
Proof.
  apply (get_identity_bounds (s "AC-T") (s "ACGT")).
  - reflexivity.
  - discriminate.
Defined.

(** ** Lists: order of occurrence *)

Section Order.

Context {A : Type}.
Hypothesis A_eq_dec : forall a b : A, {a = b} + {a <> b}.

Lemma in_first_split (a : A) (l : list A) :
  In a l -> exists p1 p2, l = p1 ++ a :: p2 /\ ~ In a p1.
Proof.
  induction l as [|x l IH]; intros H; [destruct H|].
  destruct (A_eq_dec x a) as [->|N].
  - exists [], l. split; [reflexivity|intros []].
  - destruct H as [H|H]; [contradiction|].
    destruct (IH H) as (p1 & p2 & -> & Hp).
    exists (x :: p1), p2. split; [reflexivity|].
    intros [E|E]; [contradiction|auto].
Qed.

Lemma filter_split (f : A -> bool) (l a b : list A) (y : A) :
  filter f l = a ++ y :: b ->
  exists a' b', l = a' ++ y :: b' /\ filter f a' = a /\ filter f b' = b.
Proof.
  revert a. induction l as [|x l IH]; intros a H; simpl in H.
  - destruct a; discriminate.
  - destruct (f x) eqn:Fx.
    + destruct a as [|x0 a]; simpl in H; injection H as -> H.
      * exists [], l. auto.
      * destruct (IH _ H) as (a' & b' & -> & <- & <-).
        exists (x0 :: a'), b'. simpl. rewrite Fx. auto.
    + destruct (IH _ H) as (a' & b' & -> & <- & <-).
      exists (x :: a'), b'. simpl. rewrite Fx. auto.
Qed.

Lemma occurs_before_filter (f : A -> bool) (l : list A) (a b : A) :
  occurs_before (filter f l) a b -> occurs_before l a b.
Proof.
  intros (p1 & p2 & p3 & H).
  apply filter_split in H. destruct H as (a' & b' & -> & _ & H).
  apply filter_split in H. destruct H as (a'' & b'' & -> & _ & _).
  now exists a', a'', b''.
Qed.

Lemma occurs_before_in_filter (f : A -> bool) (l : list A) (a b : A) :
  occurs_before l a b -> f a = true -> f b = true ->
  occurs_before (filter f l) a b.
Proof.
  intros (p1 & p2 & p3 & ->) Fa Fb.
  exists (filter f p1), (filter f p2), (filter f p3).
  rewrite filter_app. simpl. rewrite Fa, filter_app. simpl. now rewrite Fb.
Qed.

Lemma occurs_before_snoc (l : list A) (x a b : A) :
  occurs_before (l ++ [x]) a b ->
  occurs_before l a b \/ (In a l /\ b = x).
Proof.
  intros (p1 & p2 & p3 & H).
  induction p3 as [|y p3' _] using rev_ind.
  - right.
    change (l ++ [x] = p1 ++ a :: p2 ++ [b]) in H.
    rewrite (app_comm_cons p2 [b] a), app_assoc in H.
    apply app_inj_tail in H. destruct H as [-> ->].
    split; [|reflexivity]. apply in_elt.
  - left.
    rewrite (app_comm_cons p3' [y] b), (app_assoc p2),
      (app_comm_cons _ [y] a), app_assoc in H.
    apply app_inj_tail in H. destruct H as [-> _].
    now exists p1, p2, p3'.
Qed.

Lemma first_occurs_before_snoc (l : list A) (x a b : A) :
  first_occurs_before l a b -> first_occurs_before (l ++ [x]) a b.
Proof.
  intros (p1 & p2 & p3 & -> & H1 & H2).
  exists p1, p2, (p3 ++ [x]). repeat split; auto.
  rewrite <- app_assoc. simpl. now rewrite <- app_assoc.
Qed.

End Order.

Lemma occurs_before_map {A B : Type} (g : A -> B) (l : list A) (a b : A) :
  occurs_before l a b -> occurs_before (map g l) (g a) (g b).
Proof.
  intros (p1 & p2 & p3 & ->).
  exists (map g p1), (map g p2), (map g p3).
  now rewrite map_app, (map_cons g a), map_app.
Qed.

(** ** The reader *)

Lemma yield_if_filter (minseqlen : Z) (sequence : str) :
  yield_if minseqlen sequence
  = filter (fun x => minseqlen <=? len x) (yield_if 0 sequence).
Proof.
  unfold yield_if, yields. destruct sequence as [|c x]; [reflexivity|].
  assert (E : (0 <=? len (c :: x)) = true) by (apply Z.leb_le; unfold len; lia).
  rewrite E. simpl. now destruct (minseqlen <=? len (c :: x)).
Qed.

Lemma read_fasta_loop_filter (f : list str) (minseqlen : Z) (sequence : str) :
  read_fasta_loop f minseqlen sequence
  = filter (fun x => minseqlen <=? len x) (read_fasta_loop f 0 sequence).
Proof.
  revert sequence. induction f as [|line f IH]; intros sequence; simpl.
  - apply yield_if_filter.
  - destruct (startswith_gt (strip line)).
    + now rewrite filter_app, <- yield_if_filter, <- IH.
    + apply IH.
Qed.

Lemma read_fasta_filter (f : list str) (minseqlen : Z) :
  read_fasta f minseqlen
  = filter (fun x => minseqlen <=? len x) (read_fasta f 0).
Proof. apply read_fasta_loop_filter. Qed.

Lemma read_fasta_loop_yields (f : list str) (minseqlen : Z) (sequence : str) :
  Forall (fun x => yields minseqlen x = true)
         (read_fasta_loop f minseqlen sequence).
Proof.
  revert sequence. induction f as [|line f IH]; intros sequence; simpl.
  - unfold yield_if. destruct (yields minseqlen sequence) eqn:E; auto.
  - destruct (startswith_gt (strip line)); [|apply IH].
    apply Forall_app. split; [|apply IH].
    unfold yield_if. destruct (yields minseqlen sequence) eqn:E; auto.
Qed.

Lemma yields_spec (minseqlen : Z) (x : str) :
  yields minseqlen x = true <-> x <> [] /\ minseqlen <= len x.
Proof.
  unfold yields. destruct x as [|c x].
  - split; [discriminate|intros [H _]; congruence].
  - rewrite Z.leb_le. split; [intros H; split; [discriminate|exact H]|tauto].
Qed.

Lemma read_fasta_In (f : list str) (minseqlen : Z) (x : str) :
  In x (read_fasta f minseqlen) -> x <> [] /\ minseqlen <= len x.
Proof.
  intros H. apply yields_spec.
  exact (proj1 (Forall_forall _ _) (read_fasta_loop_yields f minseqlen []) x H).
Qed.

(** ** The counter *)

Lemma counter_incr_keys (x : str) (d : list (str * Z)) :
  map fst (counter_incr x d)
  = if in_dec str_eq_dec x (map fst d) then map fst d else map fst d ++ [x].
Proof.
  induction d as [|[k n] d IH]; simpl; [reflexivity|].
  destruct (str_eq_dec x k) as [->|N]; simpl.
  - destruct (str_eq_dec k k); [reflexivity|congruence].
  - rewrite IH. destruct (str_eq_dec k x); [congruence|].
    now destruct (in_dec str_eq_dec x (map fst d)).
Qed.

Lemma counter_incr_In (x : str) (d : list (str * Z)) (k : str) (c : Z) :
  NoDup (map fst d) ->
  In (k, c) (counter_incr x d)
  <-> (k <> x /\ In (k, c) d)
      \/ (k = x /\ (In (x, c - 1) d \/ (~ In x (map fst d) /\ c = 1))).
Proof.
  induction d as [|[k' n] d IH]; simpl; intros ND.
  - split.
    + intros [E|[]]. injection E as <- <-. right. tauto.
    + intros [[_ []]|[-> [[]|[_ ->]]]]. now left.
  - inversion ND as [|? ? Hk ND']; subst.
    destruct (str_eq_dec x k') as [->|N]; simpl.
    + split.
      * intros [E|H].
        -- injection E as <- <-. right. split; [reflexivity|].
           left. left. f_equal. lia.
        -- left. split; [|now right].
           intros ->. apply Hk. now apply (in_map fst) in H.
      * intros [[Nk [E|H]]|[-> [[E|H]|[H _]]]].
        -- injection E as E _. congruence.
        -- now right.
        -- injection E as E. left. f_equal. lia.
        -- exfalso. apply Hk. now apply (in_map fst) in H.
        -- exfalso. apply H. now left.
    + rewrite (IH ND'). split.
      * intros [E|[[Nk H]|[-> [H|[H ->]]]]].
        -- injection E as <- <-. left. split; [congruence|now left].
        -- left. split; [exact Nk|now right].
        -- right. split; [reflexivity|]. left. now right.
        -- right. split; [reflexivity|]. right. split; [|reflexivity].
           intros [E|E]; [congruence|contradiction].
      * intros [[Nk [E|H]]|[-> [[E|H]|[H ->]]]].
        -- now left.
        -- right. left. tauto.
        -- injection E as E _. congruence.
        -- right. right. split; [reflexivity|]. now left.
        -- right. right. split; [reflexivity|]. right. split; [|reflexivity].
           intros E. apply H. now right.
Qed.

Lemma Counter_snoc (l : list str) (x : str) :
  Counter (l ++ [x]) = counter_incr x (Counter l).
Proof. unfold Counter. now rewrite fold_left_app. Qed.

Lemma occurrences_snoc (l : list str) (x k : str) :
  occurrences (l ++ [x]) k
  = occurrences l k + (if str_eq_dec x k then 1 else 0).
Proof.
  unfold occurrences. rewrite count_occ_app. simpl.
  destruct (str_eq_dec x k); lia.
Qed.

Lemma occurrences_pos (l : list str) (k : str) :
  In k l <-> 0 < occurrences l k.
Proof.
  unfold occurrences. rewrite (count_occ_In str_eq_dec). lia.
Qed.

Lemma Counter_spec (l : list str) :
  NoDup (map fst (Counter l))
  /\ forall k c, In (k, c) (Counter l) <-> In k l /\ c = occurrences l k.
Proof.
  induction l as [|x l [ND IH]] using rev_ind.
  - split; [constructor|]. intros k c. simpl. tauto.
  - assert (K : forall k, In k (map fst (Counter l)) <-> In k l).
    { intros k. rewrite in_map_iff. split.
      - intros ([k' c] & <- & H). now apply IH in H.
      - intros H. exists (k, occurrences l k). split; [reflexivity|].
        now apply IH. }
    rewrite Counter_snoc. split.
    + rewrite counter_incr_keys.
      destruct (in_dec str_eq_dec x (map fst (Counter l))) as [I|I]; auto.
      apply NoDup_app; auto.
      * repeat constructor. intros [].
      * intros a Ha [<-|[]]. contradiction.
    + intros k c. rewrite (counter_incr_In _ _ _ _ ND), !IH, K.
      rewrite in_app_iff, occurrences_snoc. simpl.
      destruct (str_eq_dec x k) as [->|N].
      * pose proof (occurrences_pos l k) as P.
        assert (P0 : 0 <= occurrences l k) by (unfold occurrences; lia).
        split.
        -- intros [[Nk _]|[_ [[_ E]|[Nl ->]]]]; [congruence| |];
             (split; [right; now left|]); [lia|].
           assert (~ 0 < occurrences l k) by (rewrite <- P; exact Nl). lia.
        -- intros [_ ->]. right. split; [reflexivity|].
           destruct (in_dec str_eq_dec k l) as [I|I].
           ++ left. split; [exact I|lia].
           ++ right. split; [exact I|].
              assert (~ 0 < occurrences l k) by (rewrite <- P; exact I). lia.
      * split.
        -- intros [[_ [H ->]]|[-> _]]; [|congruence].
           split; [now left|lia].
        -- intros [[H|[E|[]]] ->]; [|congruence].
           left. split; [congruence|]. split; [exact H|lia].
Qed.

Lemma Counter_order (l : list str) (a b : str) :
  occurs_before (map fst (Counter l)) a b -> first_occurs_before l a b.
Proof.
  induction l as [|x l IH] using rev_ind; intros H.
  - destruct H as ([|? ?] & ? & ? & H); discriminate.
  - rewrite Counter_snoc, counter_incr_keys in H.
    destruct (in_dec str_eq_dec x (map fst (Counter l))) as [I|I].
    + apply first_occurs_before_snoc. auto.
    + apply occurs_before_snoc in H. destruct H as [H|[Ha ->]].
      * apply first_occurs_before_snoc. auto.
      * assert (Il : ~ In x l).
        { intros Hx. apply I. apply in_map_iff.
          exists (x, occurrences l x). split; [reflexivity|].
          now apply (proj2 (Counter_spec l)). }
        assert (Ha' : In a l).
        { apply in_map_iff in Ha. destruct Ha as ([k c] & <- & Ha).
          now apply (proj2 (Counter_spec l)) in Ha. }
        destruct (in_first_split str_eq_dec a l Ha') as (p1 & p2 & -> & Hp).
        exists p1, p2, []. repeat split; auto.
        rewrite <- app_assoc. reflexivity.
Qed.

(** ** The sort *)

Lemma insert_desc_perm (x : str * Z) (l : list (str * Z)) :
  Permutation (insert_desc x l) (x :: l).
Proof.
  induction l as [|y l IH]; simpl; [reflexivity|].
  destruct (snd x <? snd y); [|reflexivity].
  rewrite IH. apply perm_swap.
Qed.

Lemma sorted_by_count_desc_perm (l : list (str * Z)) :
  Permutation (sorted_by_count_desc l) l.
Proof.
  induction l as [|x l IH]; simpl; [reflexivity|].
  rewrite insert_desc_perm. now constructor.
Qed.

Lemma insert_desc_sorted (x : str * Z) (l : list (str * Z)) :
  StronglySorted count_desc l -> StronglySorted count_desc (insert_desc x l).
Proof.
  induction 1 as [|y l Hl IH Hy]; simpl.
  - repeat constructor.
  - destruct (Z.ltb_spec (snd x) (snd y)) as [L|G].
    + constructor; [exact IH|].
      apply (Permutation_Forall (Permutation_sym (insert_desc_perm x l))).
      constructor; [unfold count_desc; lia|exact Hy].
    + constructor; [now constructor|].
      constructor; [exact G|].
      eapply Forall_impl; [|exact Hy]. unfold count_desc. intros; lia.
Qed.

Lemma sorted_by_count_desc_sorted (l : list (str * Z)) :
  StronglySorted count_desc (sorted_by_count_desc l).
Proof.
  induction l as [|x l IH]; simpl; [constructor|].
  now apply insert_desc_sorted.
Qed.

(** Stability: the items of one count come out in the order they went in. *)
Lemma insert_desc_stable (c : Z) (x : str * Z) (l : list (str * Z)) :
  filter (fun p => snd p =? c) (insert_desc x l)
  = filter (fun p => snd p =? c) (x :: l).
Proof.
  induction l as [|y l IH]; [reflexivity|].
  cbn [insert_desc]. destruct (Z.ltb_spec (snd x) (snd y)) as [L|G];
    [|reflexivity].
  cbn [filter] in *. rewrite IH.
  destruct (Z.eqb_spec (snd x) c), (Z.eqb_spec (snd y) c);
    try reflexivity. lia.
Qed.

Lemma sorted_by_count_desc_stable (c : Z) (l : list (str * Z)) :
  filter (fun p => snd p =? c) (sorted_by_count_desc l)
  = filter (fun p => snd p =? c) l.
Proof.
  induction l as [|x l IH]; [reflexivity|].
  cbn [sorted_by_count_desc fold_right].
  rewrite insert_desc_stable. cbn [filter].
  fold (sorted_by_count_desc l). now rewrite IH.
Qed.

(** ** The dereplicator *)

Lemma occurrences_filter (f : str -> bool) (l : list str) (k : str) :
  f k = true -> occurrences (filter f l) k = occurrences l k.
Proof.
  intros Fk. unfold occurrences. f_equal.
  induction l as [|x l IH]; simpl; [reflexivity|].
  destruct (str_eq_dec x k) as [->|N].
  - rewrite Fk. simpl. destruct (str_eq_dec k k); congruence.
  - destruct (f x); simpl; [|exact IH].
    destruct (str_eq_dec x k); congruence.
Qed.

Lemma dereplicate_In (stream : list str) (mincount : Z) (x : str) (c : Z) :
  In (x, c) (dereplicate stream mincount)
  <-> In x stream /\ c = occurrences stream x /\ mincount <= c.
Proof.
  unfold dereplicate.
  split.
  - intros H.
    apply (Permutation_in _ (sorted_by_count_desc_perm _)) in H.
    apply filter_In in H. destruct H as [H L]. simpl in L.
    apply (proj2 (Counter_spec stream)) in H. apply Z.leb_le in L. tauto.
  - intros (H & E & L).
    apply (Permutation_in _ (Permutation_sym (sorted_by_count_desc_perm _))).
    apply filter_In. split; [|now apply Z.leb_le].
    now apply (proj2 (Counter_spec stream)).
Qed.

Lemma dereplicate_NoDup (stream : list str) (mincount : Z) :
  NoDup (map fst (dereplicate stream mincount)).
Proof.
  unfold dereplicate.
  apply (Permutation_NoDup
           (Permutation_map fst
              (Permutation_sym (sorted_by_count_desc_perm _)))).
  pose proof (proj1 (Counter_spec stream)) as ND.
  induction (Counter stream) as [|[k n] d IH]; simpl; [constructor|].
  inversion ND as [|? ? Hk ND']; subst.
  destruct (mincount <=? n); simpl; [|now apply IH].
  constructor; [|now apply IH].
  intros H. apply Hk. apply in_map_iff in H.
  destruct H as (p & E & H). apply filter_In in H.
  apply in_map_iff. exists p. tauto.
Qed.

Lemma read_fasta_loop_records (f : list str) (minseqlen : Z) (sequence : str) :
  read_fasta_loop f minseqlen sequence
  = yield_if minseqlen (sequence ++ fst (split_records f))
    ++ filter (yields minseqlen) (snd (split_records f)).
Proof.
  revert sequence. induction f as [|line f IH]; intros sequence; simpl.
  - now rewrite !app_nil_r.
  - destruct (split_records f) as [body recs] eqn:E. simpl in IH.
    destruct (startswith_gt (strip line)); simpl.
    + rewrite IH, app_nil_r. simpl. unfold yield_if.
      now destruct (yields minseqlen body).
    + now rewrite IH, app_assoc.
Qed.

Lemma read_fasta_records (f : list str) (minseqlen : Z) :
  read_fasta f minseqlen = filter (yields minseqlen) (records f).
Proof.
  unfold read_fasta, records. rewrite read_fasta_loop_records. simpl.
  destruct (split_records f) as [[|c lead] recs]; simpl; [reflexivity|].
  unfold yield_if. simpl. now destruct (minseqlen <=? len (c :: lead)).
Qed.

(** C2 (as amended): the candidate list holds each sequence once; a pair
    (x, c) is in it exactly when x is a record of the input that is not
    empty, c is the number of occurrences of x among the records, c is at
    least mincount and x has length at least minseqlen; and the counts
    decrease along the list. *)
Theorem dereplication_fulllength_spec (amplicon_file : list str)
  (minseqlen mincount : Z) :
  NoDup (map fst (dereplication_fulllength amplicon_file minseqlen mincount))
  /\ (forall x c,
         In (x, c) (dereplication_fulllength amplicon_file minseqlen mincount)
         <-> In x (records amplicon_file) /\ x <> []
             /\ c = occurrences (records amplicon_file) x
             /\ mincount <= c /\ minseqlen <= len x)
  /\ StronglySorted count_desc
       (dereplication_fulllength amplicon_file minseqlen mincount).
Proof.
  unfold dereplication_fulllength. split; [apply dereplicate_NoDup|].
  split; [|apply sorted_by_count_desc_sorted].
  intros x c. rewrite dereplicate_In, read_fasta_records, filter_In.
  rewrite yields_spec. split.
  - intros ((H & N & L) & E & M).
    rewrite occurrences_filter in E by now apply yields_spec. tauto.
  - intros (H & N & E & M & L).
    rewrite occurrences_filter by now apply yields_spec. tauto.
Qed.

(** C2 (as stated) fails: in the file of the three records "", "" and "ACGT"
    the empty sequence occurs twice and has length 0, so with minseqlen 0 and
    mincount 1 the stated list holds it with count 2; the candidate list is
    [("ACGT", 1)]. *)
Lemma dereplication_fulllength_drops_empty_records :
  ~ (forall x c,
        In (x, c) (dereplication_fulllength empty_records_file 0 1)
        <-> In x (records empty_records_file)
            /\ c = occurrences (records empty_records_file) x
            /\ 1 <= c /\ 0 <= len x).
Proof.
  intros H. destruct (H [] 2) as [_ H2].
  assert (I : In ([], 2) (dereplication_fulllength empty_records_file 0 1)).
  { apply H2. vm_compute. repeat split; try discriminate. now left. }
  vm_compute in I. destruct I as [I|[]]. discriminate I.
Qed.

(** C9: when two candidates of equal count stand in the candidate list, one
    before the other, the first occurrence of the former in the stream of the
    reader stands before the first occurrence of the latter. *)
Theorem dereplication_fulllength_ties (amplicon_file : list str)
  (minseqlen mincount : Z) (x y : str) (c : Z)
  (H : occurs_before
         (dereplication_fulllength amplicon_file minseqlen mincount)
         (x, c) (y, c)) :
  first_occurs_before (read_fasta amplicon_file minseqlen) x y.
Proof.
  unfold dereplication_fulllength, dereplicate in H.
  apply (occurs_before_in_filter (fun p => snd p =? c)) in H;
    try (simpl; apply Z.eqb_refl).
  rewrite sorted_by_count_desc_stable in H.
  do 2 apply occurs_before_filter in H.
  apply Counter_order.
  exact (occurs_before_map fst _ _ _ H).
Qed.

Lemma dereplication_fulllength_ties_witness :
  first_occurs_before (read_fasta sample_file 0) (s "ACGTAC") (s "GG").
Proof.
  apply (dereplication_fulllength_ties sample_file 0 2 _ _ 2).
  exists [(s "TT", 3)], [], []. vm_compute. reflexivity.
Defined.

(** ** The greedy clusterer *)

Section ClusteringFacts.

Variable global_align : str -> str -> str * str.

Lemma within_not_exceeds (sequence : str) (otu : str * Z) :
  within global_align sequence otu -> ~ exceeds global_align sequence otu.
Proof.
  intros (q & Hq & L) (q' & Hq' & G).
  rewrite Hq in Hq'. injection Hq' as <-.
  exact (Qlt_not_le _ _ G L).
Qed.

Lemma compare_otus_accept (sequence : str) (otus : list (str * Z)) :
  Forall (within global_align sequence) otus ->
  compare_otus global_align sequence otus = (calls_on sequence otus, Some true).
Proof.
  induction 1 as [|[o n] otus (q & Hq & L) _ IH]; simpl; [reflexivity|].
  simpl in Hq. rewrite Hq.
  destruct (above_threshold q) eqn:T.
  - apply above_threshold_spec in T. now apply Qlt_not_le in T.
  - now rewrite IH.
Qed.

Lemma compare_otus_reject (sequence : str) (pre post : list (str * Z))
  (r : str * Z) :
  Forall (within global_align sequence) pre -> exceeds global_align sequence r ->
  compare_otus global_align sequence (pre ++ r :: post)
  = (calls_on sequence (pre ++ [r]), Some false).
Proof.
  intros Hpre (q' & Hq' & G).
  induction Hpre as [|[o n] pre (q & Hq & L) _ IH]; simpl.
  - destruct r as [o n]. simpl in Hq'. rewrite Hq'.
    apply above_threshold_spec in G. now rewrite G.
  - simpl in Hq. rewrite Hq.
    destruct (above_threshold q) eqn:T.
    + apply above_threshold_spec in T. now apply Qlt_not_le in T.
    + now rewrite IH.
Qed.

Lemma compare_otus_flag (sequence : str) (otus : list (str * Z))
  (calls : list call) (flag : bool) :
  compare_otus global_align sequence otus = (calls, Some flag) ->
  if flag then Forall (within global_align sequence) otus
  else Exists (exceeds global_align sequence) otus.
Proof.
  revert calls. induction otus as [|[o n] otus IH]; simpl; intros calls H.
  - injection H as <- <-. constructor.
  - destruct (get_identity (global_align sequence o)) as [q|] eqn:Hq;
      [|discriminate].
    destruct (above_threshold q) eqn:T.
    + injection H as <- <-. left. exists q. split; [exact Hq|].
      now apply above_threshold_spec.
    + destruct (compare_otus global_align sequence otus) as [calls' flag'] eqn:E.
      injection H as <- ->. specialize (IH _ eq_refl).
      destruct flag; [|now right].
      constructor; [|exact IH]. exists q. split; [exact Hq|].
      apply Qnot_lt_le. intros G. apply above_threshold_spec in G.
      congruence.
Qed.

Lemma cluster_step_accept (otus : list (str * Z)) (sequence : str)
  (count : Z) :
  Forall (within global_align sequence) otus ->
  cluster_step global_align otus (sequence, count)
  = (calls_on sequence otus, Some (otus ++ [(sequence, count)])).
Proof.
  intros H. unfold cluster_step. now rewrite (compare_otus_accept _ _ H).
Qed.

Lemma cluster_step_reject (pre post : list (str * Z)) (r : str * Z)
  (sequence : str) (count : Z) :
  Forall (within global_align sequence) pre -> exceeds global_align sequence r ->
  cluster_step global_align (pre ++ r :: post) (sequence, count)
  = (calls_on sequence (pre ++ [r]), Some (pre ++ r :: post)).
Proof.
  intros H G. unfold cluster_step.
  now rewrite (compare_otus_reject _ _ post _ H G).
Qed.

Lemma cluster_step_appended (otus otus' : list (str * Z)) (sequence : str)
  (count : Z) (calls : list call) :
  cluster_step global_align otus (sequence, count) = (calls, Some otus') ->
  (otus' = otus ++ [(sequence, count)]
   <-> ~ Exists (exceeds global_align sequence) otus).
Proof.
  unfold cluster_step.
  destruct (compare_otus global_align sequence otus) as [calls' [flag|]] eqn:E;
    [|discriminate].
  intros H. injection H as _ <-.
  pose proof (compare_otus_flag _ _ _ _ E) as F.
  destruct flag.
  - split; [|reflexivity]. intros _ X.
    apply Exists_exists in X. destruct X as (o & Ho & X).
    apply (within_not_exceeds sequence o); [|exact X].
    exact (proj1 (Forall_forall _ _) F o Ho).
  - split; [|contradiction]. intros H. exfalso.
    apply (f_equal (@length _)) in H. rewrite length_app in H.
    simpl in H. lia.
Qed.

Lemma cluster_step_extends (otus otus' : list (str * Z)) (item : str * Z)
  (calls : list call) :
  cluster_step global_align otus item = (calls, Some otus') ->
  exists ext, otus' = otus ++ ext.
Proof.
  unfold cluster_step. destruct item as [sequence count].
  destruct (compare_otus global_align sequence otus) as [calls' [[|]|]];
    intros H; try discriminate; injection H as _ <-.
  - now exists [(sequence, count)].
  - exists []. now rewrite app_nil_r.
Qed.

Lemma cluster_loop_app (items1 items2 otus : list (str * Z)) :
  cluster_loop global_align (items1 ++ items2) otus
  = match cluster_loop global_align items1 otus with
    | (calls, None) => (calls, None)
    | (calls, Some otus') =>
        let (calls', r) := cluster_loop global_align items2 otus' in (calls ++ calls', r)
    end.
Proof.
  revert otus. induction items1 as [|item items1 IH]; intros otus; simpl.
  - now destruct (cluster_loop global_align items2 otus).
  - destruct (cluster_step global_align otus item) as [calls [otus1|]]; [|reflexivity].
    rewrite IH.
    destruct (cluster_loop global_align items1 otus1) as [calls1 [otus2|]];
      [|reflexivity].
    destruct (cluster_loop global_align items2 otus2) as [calls2 r].
    now rewrite app_assoc.
Qed.

Lemma cluster_loop_extends (items otus otus' : list (str * Z))
  (calls : list call) :
  cluster_loop global_align items otus = (calls, Some otus') ->
  exists ext, otus' = otus ++ ext.
Proof.
  revert otus calls. induction items as [|item items IH];
    intros otus calls; simpl.
  - intros H. injection H as _ <-. exists []. now rewrite app_nil_r.
  - destruct (cluster_step global_align otus item) as [calls1 [otus1|]] eqn:E;
      [|discriminate].
    destruct (cluster_loop global_align items otus1) as [calls2 r] eqn:E2.
    intros H. injection H as _ ->.
    destruct (cluster_step_extends _ _ _ _ E) as (ext1 & ->).
    destruct (IH _ _ E2) as (ext2 & ->).
    exists (ext1 ++ ext2). now rewrite app_assoc.
Qed.

Hypothesis pads : pads_to_longer global_align.

Lemma scored_nonempty (a b : str) :
  a <> [] -> b <> [] -> safe_call global_align (a, b).
Proof.
  intros Ha Hb. destruct (pads a b) as [P1 P2].
  assert (L : (0 < length a)%nat) by (destruct a; [congruence|simpl; lia]).
  assert (N1 : fst (global_align a b) <> []).
  { intros E. rewrite E in P1. simpl in P1. lia. }
  assert (N2 : snd (global_align a b) <> []).
  { intros E. rewrite E in P2. simpl in P2. lia. }
  unfold safe_call, scored. simpl. repeat split; auto.
  destruct (global_align a b) as [x y] eqn:E. rewrite get_identity_none.
  simpl in N1, N2. tauto.
Qed.

Lemma compare_otus_safe (sequence : str) (otus : list (str * Z)) :
  sequence <> [] -> Forall nonempty_item otus ->
  exists calls flag,
    compare_otus global_align sequence otus = (calls, Some flag)
    /\ Forall (safe_call global_align) calls.
Proof.
  intros Hs. induction 1 as [|[o n] otus Ho _ IH]; simpl.
  - exists [], true. auto.
  - unfold nonempty_item in Ho. simpl in Ho.
    pose proof (scored_nonempty sequence o Hs Ho) as S.
    destruct S as (S1 & S2 & S3 & S4 & S5). unfold scored in S5. simpl in S5.
    destruct (get_identity (global_align sequence o)) as [q|] eqn:Hq;
      [|congruence].
    assert (S : safe_call global_align (sequence, o)).
    { unfold safe_call, scored. simpl. rewrite Hq.
      repeat split; auto; discriminate. }
    destruct (above_threshold q).
    + exists [(sequence, o)], false. auto.
    + destruct IH as (calls & flag & -> & F).
      exists ((sequence, o) :: calls), flag. auto.
Qed.

Lemma cluster_loop_safe (items otus : list (str * Z)) :
  Forall nonempty_item items -> Forall nonempty_item otus ->
  exists calls otus',
    cluster_loop global_align items otus = (calls, Some otus')
    /\ Forall (safe_call global_align) calls.
Proof.
  intros Hi. revert otus.
  induction Hi as [|[sequence count] items Hs _ IH]; intros otus Ho; simpl.
  - exists [], otus. auto.
  - unfold nonempty_item in Hs. simpl in Hs.
    destruct (compare_otus_safe sequence otus Hs Ho) as (calls & flag & E & F).
    rewrite E.
    destruct (IH (if flag then otus ++ [(sequence, count)] else otus))
      as (calls' & otus' & E' & F').
    { destruct flag; [|exact Ho]. apply Forall_app. split; [exact Ho|].
      constructor; [exact Hs|constructor]. }
    simpl. rewrite E'. exists (calls ++ calls'), otus'. split; [reflexivity|].
    apply Forall_app. auto.
Qed.

End ClusteringFacts.

Lemma pad_align_pads : pads_to_longer pad_align.
Proof.
  intros a b. unfold pad_align. simpl.
  rewrite !length_app, !repeat_length. lia.
Qed.

Lemma dereplication_fulllength_nonempty (amplicon_file : list str)
  (minseqlen mincount : Z) :
  Forall nonempty_item
         (dereplication_fulllength amplicon_file minseqlen mincount).
Proof.
  apply Forall_forall. intros [x c] H.
  apply dereplicate_In in H. destruct H as (H & _).
  now apply read_fasta_In in H.
Qed.

Lemma compare_otus_greedy (global_align : str -> str -> str * str)
  (sequence : str) (otus : list (str * Z)) (calls : list call) (flag : bool) :
  compare_otus global_align sequence otus = (calls, Some flag) ->
  flag = negb (existsb (exceeds_b global_align sequence) otus)
  /\ calls = calls_on sequence
               (compared_until (exceeds_b global_align sequence) otus).
Proof.
  revert calls. induction otus as [|[o n] otus IH]; simpl; intros calls H.
  - injection H as <- <-. auto.
  - unfold exceeds_b at 1 3. simpl.
    destruct (get_identity (global_align sequence o)) as [q|]; [|discriminate].
    destruct (above_threshold q).
    + injection H as <- <-. auto.
    + destruct (compare_otus global_align sequence otus) as [calls' flag'].
      injection H as <- ->. destruct (IH _ eq_refl) as [-> ->]. auto.
Qed.

Lemma cluster_step_greedy (global_align : str -> str -> str * str)
  (otus otus' : list (str * Z)) (item : str * Z) (calls : list call) :
  cluster_step global_align otus item = (calls, Some otus') ->
  otus' = greedy_step global_align otus item
  /\ calls = calls_on (fst item)
               (compared_until (exceeds_b global_align (fst item)) otus).
Proof.
  unfold cluster_step, greedy_step. destruct item as [sequence count]. simpl.
  destruct (compare_otus global_align sequence otus) as [calls' [flag|]] eqn:E;
    [|discriminate].
  intros H. injection H as <- <-.
  destruct (compare_otus_greedy _ _ _ _ _ E) as [-> ->].
  now destruct (existsb (exceeds_b global_align sequence) otus).
Qed.

Lemma cluster_loop_greedy (global_align : str -> str -> str * str)
  (items otus otus' : list (str * Z)) (calls : list call) :
  cluster_loop global_align items otus = (calls, Some otus') ->
  otus' = greedy_otus global_align items otus
  /\ calls = greedy_calls global_align items otus.
Proof.
  revert otus calls. induction items as [|item items IH];
    intros otus calls; simpl.
  - intros H. injection H as <- <-. auto.
  - destruct (cluster_step global_align otus item) as [calls1 [otus1|]] eqn:E;
      [|discriminate].
    destruct (cluster_loop global_align items otus1) as [calls2 r] eqn:E2.
    intros H. injection H as <- ->.
    destruct (cluster_step_greedy _ _ _ _ _ E) as [-> ->].
    destruct (IH _ _ E2) as [-> ->]. auto.
Qed.

Lemma compare_otus_defined (global_align : str -> str -> str * str)
  (sequence : str) (otus : list (str * Z)) :
  (forall o, In o otus ->
             get_identity (global_align sequence (fst o)) <> None) ->
  exists calls flag,
    compare_otus global_align sequence otus = (calls, Some flag).
Proof.
  induction otus as [|[o n] otus IH]; simpl; intros D.
  - now exists [], true.
  - pose proof (D (o, n) (or_introl eq_refl)) as Do. simpl in Do.
    destruct (get_identity (global_align sequence o)) as [q|]; [|congruence].
    destruct (above_threshold q); [now eexists _, _|].
    destruct IH as (calls & flag & ->); [intros o' Ho'; apply D; now right|].
    now eexists _, _.
Qed.

Lemma cluster_loop_defined (global_align : str -> str -> str * str)
  (items otus : list (str * Z)) :
  (forall item o, In item items -> In o (otus ++ items) ->
                  get_identity (global_align (fst item) (fst o)) <> None) ->
  exists calls otus',
    cluster_loop global_align items otus = (calls, Some otus').
Proof.
  revert otus. induction items as [|[sequence count] items IH];
    intros otus D; simpl.
  - now eexists _, _.
  - destruct (compare_otus_defined global_align sequence otus)
      as (calls & flag & ->).
    { intros o Ho. apply (D (sequence, count) o); [now left|].
      apply in_or_app. now left. }
    destruct (IH (if flag then otus ++ [(sequence, count)] else otus))
      as (calls' & otus' & ->).
    { intros item o Hi Ho. apply D; [now right|].
      apply in_app_or in Ho. apply in_or_app.
      destruct flag; [|simpl; tauto].
      destruct Ho as [Ho|Ho]; [|simpl; tauto].
      apply in_app_or in Ho. simpl in *. tauto. }
    now eexists _, _.
Qed.

(** C3: the outer loop takes the candidates in list order (a list in two
    parts is processed as its first part, then its second part from the OTU
    list reached); a candidate is compared with the representatives in the
    order of the OTU list; when none of them has an identity above 97 it is
    compared with all and appended; the comparisons stop at the first
    representative whose identity is above 97 and the OTU list is left as it
    is; and a candidate is appended exactly when no representative has an
    identity above 97. On no candidate the loop returns the OTU list it was
    given, and on one candidate it does what one step does. A run that ends
    returns the OTU list of the greedy selection as the specification words
    it, after the comparisons it prescribes, in its order; and a run ends
    when every identity it may ask for is defined. *)
Theorem greedy_clusterer_first_match
  (global_align : str -> str -> str * str)
  (items1 items2 otus pre post : list (str * Z)) (r : str * Z)
  (sequence : str) (count : Z) :
  cluster_loop global_align (items1 ++ items2) otus
  = match cluster_loop global_align items1 otus with
    | (calls, None) => (calls, None)
    | (calls, Some otus') =>
        let (calls', res) := cluster_loop global_align items2 otus' in
        (calls ++ calls', res)
    end
  /\ (Forall (within global_align sequence) otus ->
      cluster_step global_align otus (sequence, count)
      = (calls_on sequence otus, Some (otus ++ [(sequence, count)])))
  /\ (Forall (within global_align sequence) pre ->
      exceeds global_align sequence r ->
      cluster_step global_align (pre ++ r :: post) (sequence, count)
      = (calls_on sequence (pre ++ [r]), Some (pre ++ r :: post)))
  /\ (forall calls otus',
         cluster_step global_align otus (sequence, count)
         = (calls, Some otus') ->
         (otus' = otus ++ [(sequence, count)]
          <-> ~ Exists (exceeds global_align sequence) otus))
  /\ cluster_loop global_align [] otus = ([], Some otus)
  /\ cluster_loop global_align [(sequence, count)] otus
     = cluster_step global_align otus (sequence, count)
  /\ (forall calls otus',
         cluster_loop global_align items1 otus = (calls, Some otus') ->
         otus' = greedy_otus global_align items1 otus
         /\ calls = greedy_calls global_align items1 otus)
  /\ ((forall item o,
          In item items1 -> In o (otus ++ items1) ->
          get_identity (global_align (fst item) (fst o)) <> None) ->
      cluster_loop global_align items1 otus
      = (greedy_calls global_align items1 otus,
         Some (greedy_otus global_align items1 otus))).
Proof.
  split; [apply cluster_loop_app|].
  split; [apply cluster_step_accept|].
  split; [apply cluster_step_reject|].
  split; [intros calls otus'; apply cluster_step_appended|].
  split; [reflexivity|].
  split.
  { cbn [cluster_loop].
    destruct (cluster_step global_align otus (sequence, count))
      as [calls [otus'|]]; [|reflexivity].
    now rewrite app_nil_r. }
  split; [intros calls otus'; apply cluster_loop_greedy|].
  intros D. destruct (cluster_loop_defined _ _ _ D) as (calls & otus' & E).
  destruct (cluster_loop_greedy _ _ _ _ _ E) as [<- <-]. exact E.
Qed.

Lemma greedy_clusterer_first_match_witness :
  cluster_step pad_align [(seq100_97, 50); (seq100, 45); (s "ACGT", 40)]
               (seq100_99, 30)
  = ([(seq100_99, seq100_97); (seq100_99, seq100)],
     Some [(seq100_97, 50); (seq100, 45); (s "ACGT", 40)])
  /\ cluster_loop pad_align [(seq100_97, 3); (seq100, 2); (seq100_99, 2)] []
     = ([(seq100, seq100_97); (seq100_99, seq100_97); (seq100_99, seq100)],
        Some [(seq100_97, 3); (seq100, 2)]).
Proof.
  split.
  - apply (proj1 (proj2 (proj2
             (greedy_clusterer_first_match pad_align [] [] []
                [(seq100_97, 50)] [(s "ACGT", 40)] (seq100, 45)
                seq100_99 30)))).
    + constructor; [|constructor].
      eexists. split; [vm_compute; reflexivity|vm_compute; discriminate].
    + eexists. split; [vm_compute; reflexivity|vm_compute; reflexivity].
  - destruct (greedy_clusterer_first_match pad_align
                [(seq100_97, 3); (seq100, 2); (seq100_99, 2)] [] []
                [] [] (seq100, 2) seq100 2)
      as (_ & _ & _ & _ & _ & _ & _ & H).
    change (cluster_loop pad_align
              [(seq100_97, 3); (seq100, 2); (seq100_99, 2)] []
            = (greedy_calls pad_align
                 [(seq100_97, 3); (seq100, 2); (seq100_99, 2)] [],
               Some (greedy_otus pad_align
                       [(seq100_97, 3); (seq100, 2); (seq100_99, 2)] []))).
    apply H. intros item o Hi Ho.
    assert (Ni : fst item <> []).
    { simpl in Hi. destruct Hi as [<-|[<-|[<-|[]]]]; discriminate. }
    intros E. apply get_identity_none in E.
    assert (L : (0 < length (fst item))%nat)
      by (destruct (fst item); [congruence|simpl; lia]).
    destruct E as [E|E]; apply (f_equal (@length _)) in E;
      rewrite length_app, repeat_length in E; simpl in E; lia.
Defined.

(** C4: a candidate whose identity against each representative is 97 or
    lower (97 itself included) is compared with all of them and appended to
    the OTU list: the test [identity > 97] is false at 97 and true exactly
    above it. *)
Theorem threshold_is_strict (global_align : str -> str -> str * str)
  (otus : list (str * Z)) (sequence : str) (count : Z)
  (H : Forall (within global_align sequence) otus) :
  cluster_step global_align otus (sequence, count)
  = (calls_on sequence otus, Some (otus ++ [(sequence, count)]))
  /\ above_threshold 97 = false
  /\ forall q, above_threshold q = false <-> (q <= 97)%Q.
Proof.
  split; [exact (cluster_step_accept _ _ _ _ H)|].
  split; [reflexivity|].
  intros q. rewrite <- not_true_iff_false, above_threshold_spec. split.
  - apply Qnot_lt_le.
  - intros L G. exact (Qlt_not_le _ _ G L).
Qed.

Lemma threshold_is_strict_witness :
  (exists q, get_identity (pad_align seq100 seq100_97) = Some q
             /\ (q == 97)%Q)
  /\ cluster_step pad_align [(seq100_97, 50)] (seq100, 40)
     = ([(seq100, seq100_97)], Some [(seq100_97, 50); (seq100, 40)]).
Proof.
  split.
  - eexists. split; vm_compute; reflexivity.
  - refine (proj1 (threshold_is_strict pad_align [(seq100_97, 50)]
                     seq100 40 _)).
    constructor; [|constructor].
    eexists. split; [vm_compute; reflexivity|vm_compute; discriminate].
Defined.

(** C6: the OTU list reached after some candidates is a prefix of the OTU
    list reached after further candidates: its size does not decrease and
    each representative keeps its index, sequence and count. *)
Theorem otu_list_append_only (global_align : str -> str -> str * str)
  (items1 items2 otus otus1 otus2 : list (str * Z))
  (calls1 calls2 : list call)
  (H1 : cluster_loop global_align items1 otus = (calls1, Some otus1))
  (H2 : cluster_loop global_align (items1 ++ items2) otus
        = (calls2, Some otus2)) :
  (length otus1 <= length otus2)%nat
  /\ forall i rep, nth_error otus1 i = Some rep ->
                   nth_error otus2 i = Some rep.
Proof.
  rewrite cluster_loop_app, H1 in H2.
  destruct (cluster_loop global_align items2 otus1) as [calls r] eqn:E.
  injection H2 as _ ->.
  destruct (cluster_loop_extends _ _ _ _ _ E) as (ext & ->).
  split.
  - rewrite length_app. lia.
  - intros i rep Hi. rewrite nth_error_app1; [exact Hi|].
    apply nth_error_Some. congruence.
Qed.

Lemma otu_list_append_only_witness :
  (length [(seq100_97, 50); (seq100, 45)]
   <= length [(seq100_97, 50); (seq100, 45); (s "ACGT", 20)])%nat
  /\ forall i rep,
       nth_error [(seq100_97, 50); (seq100, 45)] i = Some rep ->
       nth_error [(seq100_97, 50); (seq100, 45); (s "ACGT", 20)] i
       = Some rep.
Proof.
  apply (otu_list_append_only pad_align
           [(seq100_97, 50); (seq100, 45)]
           [(seq100_99, 30); (s "ACGT", 20)] []
           [(seq100_97, 50); (seq100, 45)]
           [(seq100_97, 50); (seq100, 45); (s "ACGT", 20)]
           (fst (cluster_loop pad_align
                   [(seq100_97, 50); (seq100, 45)] []))
           (fst (cluster_loop pad_align
                   [(seq100_97, 50); (seq100, 45);
                    (seq100_99, 30); (s "ACGT", 20)] [])));
    vm_compute; reflexivity.
Defined.

(** C7: when every sequence of the input is shorter than minseqlen or occurs
    fewer than mincount times (in particular when the input has no sequence,
    when none passes the length filter, when none passes the count filter),
    the candidate list is empty and the clustering returns the empty OTU
    list, having called neither the aligner nor the scorer. *)
Theorem degenerate_input_empty (global_align : str -> str -> str * str)
  (amplicon_file : list str) (minseqlen mincount chunk_size kmer_size : Z)
  (H : forall x, In x (read_fasta amplicon_file 0) ->
                 len x < minseqlen
                 \/ occurrences (read_fasta amplicon_file 0) x < mincount) :
  dereplication_fulllength amplicon_file minseqlen mincount = []
  /\ abundance_greedy_clustering_run global_align amplicon_file minseqlen
       mincount chunk_size kmer_size = ([], Some [])
  /\ abundance_greedy_clustering global_align amplicon_file minseqlen
       mincount chunk_size kmer_size = Some [].
Proof.
  assert (E : dereplication_fulllength amplicon_file minseqlen mincount = []).
  { destruct (dereplication_fulllength amplicon_file minseqlen mincount)
      as [|[x c] l] eqn:E; [reflexivity|exfalso].
    assert (I : In (x, c)
                  (dereplication_fulllength amplicon_file minseqlen mincount))
      by (rewrite E; now left).
    unfold dereplication_fulllength in I. apply dereplicate_In in I.
    rewrite read_fasta_filter in I. destruct I as (I & -> & M).
    apply filter_In in I. destruct I as [I L]. apply Z.leb_le in L.
    rewrite occurrences_filter in M by now apply Z.leb_le.
    destruct (H x I); lia. }
  unfold abundance_greedy_clustering, abundance_greedy_clustering_run.
  rewrite E. auto.
Qed.

Lemma degenerate_input_empty_witness :
  dereplication_fulllength sample_file 0 4 = []
  /\ abundance_greedy_clustering_run pad_align sample_file 0 4 0 0
     = ([], Some [])
  /\ abundance_greedy_clustering pad_align sample_file 0 4 0 0 = Some [].
Proof.
  apply (degenerate_input_empty pad_align sample_file 0 4 0 0).
  intros x Hx. right. vm_compute in Hx.
  repeat (destruct Hx as [<-|Hx]; [vm_compute; reflexivity|]).
  destruct Hx.
Defined.

(** C8: every sequence yielded by the reader is non-empty and at least
    minseqlen long; and when the aligner returns padded strings at least as
    long as the longer sequence, the clustering returns an OTU list (it is
    not aborted by a division by zero) and in every call of the scorer the
    two sequences aligned and the two padded strings are non-empty. *)
Theorem scorer_never_divides_by_zero
  (global_align : str -> str -> str * str)
  (amplicon_file : list str) (minseqlen mincount chunk_size kmer_size : Z)
  (H : pads_to_longer global_align) :
  (forall x, In x (read_fasta amplicon_file minseqlen) ->
             x <> [] /\ minseqlen <= len x)
  /\ exists calls otus,
       abundance_greedy_clustering_run global_align amplicon_file minseqlen
         mincount chunk_size kmer_size = (calls, Some otus)
       /\ Forall (safe_call global_align) calls.
Proof.
  split; [intros x; apply read_fasta_In|].
  unfold abundance_greedy_clustering_run.
  apply (cluster_loop_safe global_align H).
  - apply dereplication_fulllength_nonempty.
  - constructor.
Qed.

Lemma scorer_never_divides_by_zero_witness :
  (forall x, In x (read_fasta sample_file 2) -> x <> [] /\ 2 <= len x)
  /\ exists calls otus,
       abundance_greedy_clustering_run pad_align sample_file 2 2 0 0
       = (calls, Some otus)
       /\ Forall (safe_call pad_align) calls.
Proof.
  apply (scorer_never_divides_by_zero pad_align sample_file 2 2 0 0).
  exact pad_align_pads.
Defined.

(** C10: the OTU list returned, and the calls of the scorer made to obtain
    it, are the same for any two choices of chunk_size and kmer_size. *)
Theorem chunk_size_kmer_size_unused (global_align : str -> str -> str * str)
  (amplicon_file : list str) (minseqlen mincount : Z)
  (chunk_size kmer_size chunk_size' kmer_size' : Z) :
  abundance_greedy_clustering global_align amplicon_file minseqlen mincount
    chunk_size kmer_size
  = abundance_greedy_clustering global_align amplicon_file minseqlen mincount
      chunk_size' kmer_size'
  /\ abundance_greedy_clustering_run global_align amplicon_file minseqlen
       mincount chunk_size kmer_size
     = abundance_greedy_clustering_run global_align amplicon_file minseqlen
         mincount chunk_size' kmer_size'.
Proof.
  unfold abundance_greedy_clustering, abundance_greedy_clustering_run.
  split; reflexivity.
Qed.

(** * Further properties of the code *)

(** ** The identity scorer *)

Lemma count_matches_sym (x y : str) : count_matches x y = count_matches y x.
Proof.
  unfold count_matches. f_equal.
  revert y. induction x as [|a x IH]; intros [|b y]; simpl; try reflexivity.
  rewrite (Ascii.eqb_sym a b). destruct (Ascii.eqb b a); simpl; now rewrite IH.
Qed.

Lemma count_matches_firstn (x y : str) :
  count_matches (firstn (Nat.min (length x) (length y)) x)
                (firstn (Nat.min (length x) (length y)) y)
  = count_matches x y.
Proof.
  unfold count_matches.
  now rewrite <- combine_firstn, <- length_combine, firstn_all.
Qed.

Lemma min_size_firstn (x y : str) :
  min_size (firstn (Nat.min (length x) (length y)) x)
           (firstn (Nat.min (length x) (length y)) y)
  = min_size x y.
Proof. rewrite !min_size_nat, !length_firstn. lia. Qed.

Lemma filter_length_all {A : Type} (f : A -> bool) (l : list A) :
  length (filter f l) = length l <-> forallb f l = true.
Proof.
  induction l as [|a l IH]; simpl; [tauto|].
  destruct (f a); simpl.
  - rewrite <- IH. lia.
  - pose proof (filter_length_le f l). split; [lia|discriminate].
Qed.

Lemma combine_all_equal (x y : str) :
  forallb (fun ab => Ascii.eqb (fst ab) (snd ab)) (combine x y) = true
  <-> firstn (Nat.min (length x) (length y)) x
      = firstn (Nat.min (length x) (length y)) y.
Proof.
  revert y. induction x as [|a x IH]; intros [|b y]; simpl; try tauto.
  rewrite andb_true_iff, IH, Ascii.eqb_eq. split.
  - intros [-> ->]. reflexivity.
  - intros E. injection E as -> E. auto.
Qed.

Lemma percent_full (c m : Z) :
  0 < m -> ((inject_Z c / inject_Z m * 100 == 100)%Q <-> c = m).
Proof.
  intros Hm.
  assert (N : ~ (inject_Z m == 0)%Q).
  { intros E. rewrite (Zlt_Qlt 0 m) in Hm. rewrite E in Hm.
    exact (Qlt_irrefl _ Hm). }
  split.
  - intros E. apply inject_Z_injective.
    assert (F : (inject_Z c
                 == inject_Z c / inject_Z m * 100 * inject_Z m / 100)%Q)
      by (field; exact N).
    rewrite F, E. field.
  - intros ->. field. exact N.
Qed.

(** X1: the scorer fails with a division by zero exactly when one of the two
    aligned strings is empty; on two non-empty strings it returns a value. *)
Theorem get_identity_zero_division (x y : str) :
  (get_identity (x, y) = None <-> x = [] \/ y = [])
  /\ (x <> [] -> y <> [] -> exists q, get_identity (x, y) = Some q).
Proof.
  split; [apply get_identity_none|].
  intros Hx Hy. destruct (get_identity (x, y)) as [q|] eqn:E; [now exists q|].
  apply get_identity_none in E. tauto.
Qed.

(** X2: the scorer is symmetric in the two aligned strings. *)
Theorem get_identity_symmetric (x y : str) :
  get_identity (x, y) = get_identity (y, x).
Proof.
  unfold get_identity. simpl.
  rewrite (count_matches_sym x y).
  unfold min_size. now rewrite Z.min_comm.
Qed.

(** X3: when the two strings have different lengths, what the longer one has
    beyond the length of the shorter one is ignored: the score is that of the
    two strings cut to the shorter length. *)
Theorem get_identity_ignores_excess (x y : str) :
  get_identity (x, y)
  = get_identity (firstn (Nat.min (length x) (length y)) x,
                  firstn (Nat.min (length x) (length y)) y).
Proof.
  unfold get_identity. simpl.
  now rewrite count_matches_firstn, min_size_firstn.
Qed.

(** X4: on two non-empty strings the score is 100 exactly when the strings
    carry the same character at every position below the shorter length,
    that is when one is a prefix of the other. *)
Theorem get_identity_full (x y : str) (Hx : x <> []) (Hy : y <> []) :
  (exists q, get_identity (x, y) = Some q /\ (q == 100)%Q)
  <-> firstn (Nat.min (length x) (length y)) x
      = firstn (Nat.min (length x) (length y)) y.
Proof.
  assert (Hm : 0 < min_size x y).
  { rewrite min_size_nat. destruct x; [congruence|]. destruct y; [congruence|].
    simpl. lia. }
  rewrite get_identity_some by lia.
  rewrite <- combine_all_equal, <- filter_length_all, length_combine.
  split.
  - intros (q & E & Q). injection E as <-.
    apply (percent_full _ _ Hm) in Q.
    unfold count_matches in Q. rewrite min_size_nat in Q. lia.
  - intros E. eexists. split; [reflexivity|].
    apply (percent_full _ _ Hm).
    unfold count_matches. rewrite min_size_nat. lia.
Qed.

Lemma get_identity_full_witness :
  (exists q, get_identity (s "ACGT", s "ACGTTT") = Some q /\ (q == 100)%Q)
  <-> firstn (Nat.min (length (s "ACGT")) (length (s "ACGTTT"))) (s "ACGT")
      = firstn (Nat.min (length (s "ACGT")) (length (s "ACGTTT")))
               (s "ACGTTT").
Proof.
  apply (get_identity_full (s "ACGT") (s "ACGTTT")); discriminate.
Defined.

(** ** The reader *)

Lemma lstrip_idempotent (x : str) : lstrip (lstrip x) = lstrip x.
Proof.
  induction x as [|c x IH]; simpl; [reflexivity|].
  destruct (isspace c) eqn:E; [exact IH|]. simpl. now rewrite E.
Qed.

Lemma lstrip_snoc (x : str) (c : ascii) :
  isspace c = false -> exists y, lstrip (x ++ [c]) = y ++ [c].
Proof.
  intros Hc. induction x as [|a x IH]; simpl.
  - rewrite Hc. now exists [].
  - destruct (isspace a); [exact IH|]. now exists (a :: x).
Qed.

Lemma rstrip_cons (c : ascii) (x : str) :
  isspace c = false -> exists y, rstrip (c :: x) = c :: y.
Proof.
  intros Hc. unfold rstrip. simpl.
  destruct (lstrip_snoc (rev x) c Hc) as (y & ->).
  exists (rev y). now rewrite rev_app_distr.
Qed.

Lemma lstrip_head (x : str) :
  lstrip x = [] \/ exists c y, lstrip x = c :: y /\ isspace c = false.
Proof.
  induction x as [|c x IH]; simpl; [now left|].
  destruct (isspace c) eqn:E; [exact IH|]. right. now exists c, x.
Qed.

Lemma strip_idempotent (x : str) : strip (strip x) = strip x.
Proof.
  assert (L : lstrip (strip x) = strip x).
  { unfold strip. destruct (lstrip_head x) as [->|(c & y & -> & Hc)].
    - reflexivity.
    - destruct (rstrip_cons c y Hc) as (z & ->). simpl. now rewrite Hc. }
  unfold strip at 1. rewrite L. unfold strip, rstrip.
  now rewrite rev_involutive, lstrip_idempotent.
Qed.

Lemma strip_no_space (x : str) :
  Forall (fun c => isspace c = false) x -> strip x = x.
Proof.
  intros H.
  assert (L : forall y, Forall (fun c => isspace c = false) y -> lstrip y = y).
  { intros y Hy. destruct Hy as [|c y Hc _]; simpl; [reflexivity|].
    now rewrite Hc. }
  unfold strip, rstrip. rewrite (L x H), L, rev_involutive; [reflexivity|].
  apply Forall_rev. exact H.
Qed.

Lemma read_fasta_loop_header (f1 f2 : list str) (h : str) (minseqlen : Z)
  (sequence : str) :
  startswith_gt (strip h) = true ->
  read_fasta_loop (f1 ++ h :: f2) minseqlen sequence
  = read_fasta_loop f1 minseqlen sequence ++ read_fasta_loop f2 minseqlen [].
Proof.
  intros Hh. revert sequence.
  induction f1 as [|line f1 IH]; intros sequence; simpl.
  - now rewrite Hh.
  - destruct (startswith_gt (strip line)); [|apply IH].
    now rewrite IH, app_assoc.
Qed.

Lemma read_fasta_loop_body (body : list str) (minseqlen : Z) (sequence : str) :
  Forall (fun line => startswith_gt (strip line) = false) body ->
  read_fasta_loop body minseqlen sequence
  = yield_if minseqlen (sequence ++ concat (map strip body)).
Proof.
  intros H. revert sequence.
  induction H as [|line body Hl _ IH]; intros sequence; simpl.
  - now rewrite app_nil_r.
  - now rewrite Hl, IH, app_assoc.
Qed.

(** X5: raising the minimum length only removes sequences from the stream of
    the reader: the stream under a bound is the stream under any lower bound
    restricted, in the same order, to the sequences that reach the bound. A
    bound of 1 or less has no effect, as an empty sequence is never yielded. *)
Theorem read_fasta_minseqlen (amplicon_file : list str)
  (minseqlen minseqlen' : Z) (H : minseqlen' <= minseqlen) :
  read_fasta amplicon_file minseqlen
  = filter (fun x => minseqlen <=? len x)
           (read_fasta amplicon_file minseqlen')
  /\ (minseqlen <= 1 ->
      read_fasta amplicon_file minseqlen = read_fasta amplicon_file 0).
Proof.
  split.
  - rewrite (read_fasta_filter _ minseqlen), (read_fasta_filter _ minseqlen').
    induction (read_fasta amplicon_file 0) as [|x l IH]; simpl; [reflexivity|].
    destruct (Z.leb_spec minseqlen' (len x)) as [L'|L']; simpl;
      destruct (Z.leb_spec minseqlen (len x)) as [L|L]; try lia;
      now rewrite IH.
  - intros H1. rewrite read_fasta_filter.
    apply forallb_filter_id. apply forallb_forall. intros x Hx.
    apply read_fasta_In in Hx. destruct Hx as [Hx _]. apply Z.leb_le.
    unfold len. destruct x; [congruence|simpl; lia].
Qed.

Lemma read_fasta_minseqlen_witness :
  read_fasta sample_file 1
  = filter (fun x => 1 <=? len x) (read_fasta sample_file (-5))
  /\ (1 <= 1 -> read_fasta sample_file 1 = read_fasta sample_file 0).
Proof.
  apply (read_fasta_minseqlen sample_file 1 (-5)). lia.
Defined.

(** X6: a line that is empty once stripped (a blank line, in a record or
    between records) has no effect on what is read. *)
Theorem read_fasta_blank_line (f1 f2 : list str) (blank : str)
  (minseqlen : Z) (H : strip blank = []) :
  read_fasta (f1 ++ blank :: f2) minseqlen = read_fasta (f1 ++ f2) minseqlen.
Proof.
  unfold read_fasta. generalize (@nil ascii) as sequence.
  induction f1 as [|line f1 IH]; intros sequence; simpl.
  - rewrite H. simpl. now rewrite app_nil_r.
  - destruct (startswith_gt (strip line)); now rewrite IH.
Qed.

Lemma read_fasta_blank_line_witness :
  read_fasta (map s [">r1"; "AC"]%string ++ s "  " :: map s ["GT"]%string) 0
  = read_fasta (map s [">r1"; "AC"]%string ++ map s ["GT"]%string) 0.
Proof.
  apply (read_fasta_blank_line (map s [">r1"; "AC"]%string)
           (map s ["GT"]%string) (s "  ") 0).
  reflexivity.
Defined.

(** X7: the white space at both ends of each line is ignored: a file and the
    file of its stripped lines are read alike. *)
Theorem read_fasta_strips_lines (amplicon_file : list str) (minseqlen : Z) :
  read_fasta (map strip amplicon_file) minseqlen
  = read_fasta amplicon_file minseqlen.
Proof.
  unfold read_fasta. generalize (@nil ascii) as sequence.
  induction amplicon_file as [|line f IH]; intros sequence; simpl;
    [reflexivity|].
  rewrite strip_idempotent.
  destruct (startswith_gt (strip line)); now rewrite IH.
Qed.

(** X8: a header line closes what comes before it: a file cut in front of a
    header line is read as its first part followed by its second part. *)
Theorem read_fasta_splits_at_header (f1 f2 : list str) (h : str)
  (minseqlen : Z) (H : startswith_gt (strip h) = true) :
  read_fasta (f1 ++ h :: f2) minseqlen
  = read_fasta f1 minseqlen ++ read_fasta (h :: f2) minseqlen.
Proof.
  unfold read_fasta. rewrite (read_fasta_loop_header _ _ _ _ _ H).
  simpl. now rewrite H.
Qed.

Lemma read_fasta_splits_at_header_witness :
  read_fasta (map s [">r1"; "AC"; "GT"]%string
              ++ s " >r2" :: map s ["TT"]%string) 0
  = read_fasta (map s [">r1"; "AC"; "GT"]%string) 0
    ++ read_fasta (s " >r2" :: map s ["TT"]%string) 0.
Proof.
  apply (read_fasta_splits_at_header (map s [">r1"; "AC"; "GT"]%string)
           (map s ["TT"]%string) (s " >r2") 0).
  reflexivity.
Defined.

(** X9: a record, a header line followed by lines that are not header lines,
    gives one sequence, the concatenation of its stripped lines, when this is
    not empty and reaches the minimum length, and nothing otherwise. *)
Theorem read_fasta_record (h : str) (body : list str) (minseqlen : Z)
  (Hh : startswith_gt (strip h) = true)
  (Hb : Forall (fun line => startswith_gt (strip line) = false) body) :
  read_fasta (h :: body) minseqlen
  = if yields minseqlen (concat (map strip body))
    then [concat (map strip body)] else [].
Proof.
  unfold read_fasta. simpl. rewrite Hh. simpl.
  now rewrite (read_fasta_loop_body _ _ _ Hb).
Qed.

Lemma read_fasta_record_witness :
  read_fasta (s ">r1" :: map s ["AC "; " GT"; ""; "A C"]%string) 5
  = if yields 5 (concat (map strip (map s ["AC "; " GT"; ""; "A C"]%string)))
    then [concat (map strip (map s ["AC "; " GT"; ""; "A C"]%string))]
    else [].
Proof.
  apply (read_fasta_record (s ">r1")
           (map s ["AC "; " GT"; ""; "A C"]%string) 5).
  - reflexivity.
  - repeat constructor.
Defined.

(** ** The dereplicator *)

Lemma total_count_app (l1 l2 : list (str * Z)) :
  total_count (l1 ++ l2) = total_count l1 + total_count l2.
Proof.
  induction l1 as [|x l1 IH]; simpl; [reflexivity|]. rewrite IH. lia.
Qed.

Lemma total_count_counter_incr (x : str) (d : list (str * Z)) :
  total_count (counter_incr x d) = total_count d + 1.
Proof.
  induction d as [|[k n] d IH]; simpl; [reflexivity|].
  destruct (str_eq_dec x k); simpl; lia.
Qed.

Lemma total_count_Counter (l : list str) :
  total_count (Counter l) = Z.of_nat (length l).
Proof.
  induction l as [|x l IH] using rev_ind; [reflexivity|].
  rewrite Counter_snoc, total_count_counter_incr, IH, length_app. simpl. lia.
Qed.

Lemma total_count_insert_desc (x : str * Z) (l : list (str * Z)) :
  total_count (insert_desc x l) = snd x + total_count l.
Proof.
  induction l as [|y l IH]; simpl; [reflexivity|].
  destruct (snd x <? snd y); simpl; lia.
Qed.

Lemma total_count_sorted (l : list (str * Z)) :
  total_count (sorted_by_count_desc l) = total_count l.
Proof.
  induction l as [|x l IH]; simpl; [reflexivity|].
  fold (sorted_by_count_desc l). rewrite total_count_insert_desc. lia.
Qed.

Lemma Counter_positive (l : list str) :
  Forall (fun item => 1 <= snd item) (Counter l).
Proof.
  apply Forall_forall. intros [k c] H.
  apply (proj2 (Counter_spec l)) in H. destruct H as [H ->].
  apply occurrences_pos in H. simpl. lia.
Qed.

Lemma total_count_filter (f : str * Z -> bool) (l : list (str * Z)) :
  Forall (fun item => 1 <= snd item) l ->
  total_count (filter f l) <= total_count l.
Proof.
  induction 1 as [|x l Hx _ IH]; simpl; [lia|].
  destruct (f x); simpl; lia.
Qed.

Lemma occurrences_perm (l l' : list str) (x : str) :
  Permutation l l' -> occurrences l x = occurrences l' x.
Proof.
  intros P. unfold occurrences. f_equal.
  now apply (Permutation_count_occ str_eq_dec).
Qed.

Lemma insert_desc_front (x : str * Z) (l : list (str * Z)) :
  Forall (fun z => snd z <= snd x) l -> insert_desc x l = x :: l.
Proof.
  intros H. destruct H as [|y l' Hy _]; simpl; [reflexivity|].
  destruct (Z.ltb_spec (snd x) (snd y)); [lia|reflexivity].
Qed.

Lemma filter_insert_desc (f : str * Z -> bool) (x : str * Z)
  (l : list (str * Z)) :
  StronglySorted count_desc l ->
  filter f (insert_desc x l)
  = if f x then insert_desc x (filter f l) else filter f l.
Proof.
  induction 1 as [|y l Hl IH Hy]; simpl.
  - now destruct (f x).
  - destruct (Z.ltb_spec (snd x) (snd y)) as [L|G]; simpl.
    + rewrite IH. destruct (f y), (f x); simpl; try reflexivity.
      destruct (Z.ltb_spec (snd x) (snd y)); [reflexivity|lia].
    + destruct (f x); [|reflexivity].
      assert (F : Forall (fun z => snd z <= snd x) (y :: l)).
      { constructor; [exact G|]. eapply Forall_impl; [|exact Hy].
        unfold count_desc. intros; lia. }
      symmetry. apply (insert_desc_front x (filter f (y :: l))).
      apply Forall_forall. intros z Hz. apply filter_In in Hz.
      exact (proj1 (Forall_forall _ _) F z (proj1 Hz)).
Qed.

Lemma filter_sorted_by_count_desc (f : str * Z -> bool) (l : list (str * Z)) :
  filter f (sorted_by_count_desc l) = sorted_by_count_desc (filter f l).
Proof.
  induction l as [|x l IH]; [reflexivity|].
  cbn [sorted_by_count_desc fold_right filter].
  fold (sorted_by_count_desc l).
  rewrite (filter_insert_desc f x _ (sorted_by_count_desc_sorted l)), IH.
  now destruct (f x).
Qed.

(** X10: no read is counted twice: the counts of the candidates add up to at
    most the number of sequences read, and to exactly that number when
    mincount is 1 or less. *)
Theorem dereplicate_total_count (stream : list str) (mincount : Z) :
  total_count (dereplicate stream mincount) <= Z.of_nat (length stream)
  /\ (mincount <= 1 ->
      total_count (dereplicate stream mincount) = Z.of_nat (length stream)).
Proof.
  unfold dereplicate. rewrite total_count_sorted, <- total_count_Counter.
  split.
  - apply total_count_filter, Counter_positive.
  - intros H. f_equal. apply forallb_filter_id, forallb_forall.
    intros item Hi. apply Z.leb_le.
    pose proof (proj1 (Forall_forall _ _) (Counter_positive stream) item Hi).
    simpl in *. lia.
Qed.

(** X11: the candidates and their counts do not depend on the order of the
    reads: two streams that are permutations of each other give candidate
    lists that are permutations of each other. *)
Theorem dereplicate_permutation (stream stream' : list str) (mincount : Z)
  (H : Permutation stream stream') :
  Permutation (dereplicate stream mincount) (dereplicate stream' mincount).
Proof.
  apply NoDup_Permutation.
  - apply (NoDup_map_inv fst), dereplicate_NoDup.
  - apply (NoDup_map_inv fst), dereplicate_NoDup.
  - intros [x c]. rewrite !dereplicate_In, (occurrences_perm _ _ x H).
    split; intros (I & E); (split; [|exact E]).
    + exact (Permutation_in _ H I).
    + exact (Permutation_in _ (Permutation_sym H) I).
Qed.

Lemma dereplicate_permutation_witness :
  Permutation (dereplicate (map s ["TT"; "GG"; "TT"]%string) 1)
              (dereplicate (map s ["GG"; "TT"; "TT"]%string) 1).
Proof.
  apply (dereplicate_permutation (map s ["TT"; "GG"; "TT"]%string)
           (map s ["GG"; "TT"; "TT"]%string) 1).
  simpl. apply perm_swap.
Defined.

(** X12: raising mincount only removes candidates: the candidate list under a
    bound is the candidate list under any lower bound restricted, in the same
    order, to the candidates whose count reaches the bound. *)
Theorem dereplicate_mincount (stream : list str) (mincount mincount' : Z)
  (H : mincount' <= mincount) :
  dereplicate stream mincount
  = filter (fun item => mincount <=? snd item)
           (dereplicate stream mincount').
Proof.
  unfold dereplicate. rewrite filter_sorted_by_count_desc. f_equal.
  induction (Counter stream) as [|x l IH]; simpl; [reflexivity|].
  destruct (Z.leb_spec mincount' (snd x)); simpl;
    destruct (Z.leb_spec mincount (snd x)); try lia; now rewrite IH.
Qed.

Lemma dereplicate_mincount_witness :
  dereplicate (read_fasta sample_file 0) 3
  = filter (fun item => 3 <=? snd item)
           (dereplicate (read_fasta sample_file 0) 2).
Proof.
  apply (dereplicate_mincount (read_fasta sample_file 0) 3 2). lia.
Defined.

(** ** The greedy clusterer *)

Section ClusteringInvariants.

Variable global_align : str -> str -> str * str.

Lemma cluster_step_cases (otus otus' : list (str * Z)) (item : str * Z)
  (calls : list call) :
  cluster_step global_align otus item = (calls, Some otus') ->
  (otus' = otus ++ [item] /\ Forall (within global_align (fst item)) otus)
  \/ (otus' = otus /\ Exists (exceeds global_align (fst item)) otus).
Proof.
  unfold cluster_step. destruct item as [sequence count].
  destruct (compare_otus global_align sequence otus) as [calls' [flag|]] eqn:E;
    [|discriminate].
  intros H. injection H as _ <-.
  pose proof (compare_otus_flag _ _ _ _ _ E) as F.
  destruct flag; [left|right]; auto.
Qed.

Lemma compare_otus_calls (sequence : str) (otus : list (str * Z)) :
  exists k, fst (compare_otus global_align sequence otus)
            = calls_on sequence (firstn k otus).
Proof.
  induction otus as [|[o n] otus (k & IH)]; simpl.
  - now exists 0%nat.
  - destruct (get_identity (global_align sequence o)) as [q|].
    + destruct (above_threshold q); [now exists 1%nat|].
      destruct (compare_otus global_align sequence otus) as [calls flag].
      exists (S k). simpl in *. now rewrite IH.
    + now exists 1%nat.
Qed.

Lemma cluster_step_calls (otus : list (str * Z)) (item : str * Z) :
  exists k, fst (cluster_step global_align otus item)
            = calls_on (fst item) (firstn k otus).
Proof.
  destruct item as [sequence count]. unfold cluster_step.
  destruct (compare_otus_calls sequence otus) as (k & E).
  exists k. destruct (compare_otus global_align sequence otus) as [c [f|]];
    exact E.
Qed.

Lemma separated_snoc (otus : list (str * Z)) (item : str * Z) :
  separated global_align otus ->
  Forall (within global_align (fst item)) otus ->
  separated global_align (otus ++ [item]).
Proof.
  intros S F pre r post E.
  induction post as [|y post' _] using rev_ind.
  - apply app_inj_tail in E. destruct E as [-> ->]. exact F.
  - rewrite (app_comm_cons post' [y] r), app_assoc in E.
    apply app_inj_tail in E. destruct E as [-> _].
    exact (S pre r post' eq_refl).
Qed.

Lemma cluster_loop_separated (items otus otus' : list (str * Z))
  (calls : list call) :
  cluster_loop global_align items otus = (calls, Some otus') ->
  separated global_align otus -> separated global_align otus'.
Proof.
  revert otus calls. induction items as [|item items IH];
    intros otus calls; simpl.
  - intros H. now injection H as _ <-.
  - destruct (cluster_step global_align otus item) as [calls1 [otus1|]] eqn:E;
      [|discriminate].
    destruct (cluster_loop global_align items otus1) as [calls2 r] eqn:E2.
    intros H S. injection H as _ ->.
    apply (IH _ _ E2).
    destruct (cluster_step_cases _ _ _ _ E) as [[-> F]|[-> _]];
      [now apply separated_snoc|exact S].
Qed.

Lemma cluster_loop_replay (post pre : list (str * Z)) :
  separated global_align (pre ++ post) ->
  exists calls,
    cluster_loop global_align post pre = (calls, Some (pre ++ post)).
Proof.
  revert pre. induction post as [|[sequence count] post IH]; intros pre S.
  - exists []. simpl. now rewrite app_nil_r.
  - simpl.
    rewrite (compare_otus_accept global_align sequence pre
               (S pre (sequence, count) post eq_refl)).
    destruct (IH (pre ++ [(sequence, count)])) as (calls & E).
    { now rewrite <- app_assoc. }
    rewrite E, <- app_assoc. now eexists.
Qed.

Lemma cluster_loop_deletion (P : list (str * Z) -> Prop)
  (items otus otus' : list (str * Z)) (calls : list call) :
  (forall a x b, P (a ++ x :: b) -> P (a ++ b)) ->
  cluster_loop global_align items otus = (calls, Some otus') ->
  P (otus ++ items) -> P otus'.
Proof.
  intros D. revert otus calls. induction items as [|item items IH];
    intros otus calls; simpl.
  - intros H. injection H as _ <-. now rewrite app_nil_r.
  - destruct (cluster_step global_align otus item) as [calls1 [otus1|]] eqn:E;
      [|discriminate].
    destruct (cluster_loop global_align items otus1) as [calls2 r] eqn:E2.
    intros H HP. injection H as _ ->.
    apply (IH _ _ E2).
    destruct (cluster_step_cases _ _ _ _ E) as [[-> _]|[-> _]].
    + now rewrite <- app_assoc.
    + now apply D in HP.
Qed.

Lemma compare_otus_calls_length (sequence : str) (otus : list (str * Z)) :
  (length (fst (compare_otus global_align sequence otus)) <= length otus)%nat.
Proof.
  destruct (compare_otus_calls sequence otus) as (k & ->).
  unfold calls_on. rewrite length_map, length_firstn. lia.
Qed.

Lemma cluster_loop_calls_length (items otus : list (str * Z)) :
  (2 * length (fst (cluster_loop global_align items otus)) + length items
   <= length items * (2 * length otus + length items))%nat.
Proof.
  revert otus. induction items as [|[sequence count] items IH];
    intros otus; simpl; [lia|].
  pose proof (compare_otus_calls_length sequence otus) as C.
  destruct (compare_otus global_align sequence otus) as [calls0 [flag|]];
    simpl in *; [|nia].
  specialize (IH (if flag then otus ++ [(sequence, count)] else otus)).
  destruct (cluster_loop global_align items
              (if flag then otus ++ [(sequence, count)] else otus))
    as [calls' r].
  simpl in *. rewrite length_app.
  assert (K : (length (if flag then otus ++ [(sequence, count)] else otus)
               <= length otus + 1)%nat).
  { destruct flag; [rewrite length_app; simpl; lia|lia]. }
  nia.
Qed.

End ClusteringInvariants.

Lemma StronglySorted_deletion (a b : list (str * Z)) (x : str * Z) :
  StronglySorted count_desc (a ++ x :: b) -> StronglySorted count_desc (a ++ b).
Proof.
  induction a as [|y a IH]; simpl; intros H; inversion H as [|? ? Hs Hf]; subst.
  - exact Hs.
  - constructor; [now apply IH|].
    rewrite Forall_app in *. destruct Hf as [Ha Hb].
    inversion Hb; subst. now split.
Qed.

Lemma cluster_loop_calls_pairs (global_align : str -> str -> str * str)
  (items otus otus' : list (str * Z)) (calls : list call) :
  cluster_loop global_align items otus = (calls, Some otus') ->
  Forall (fun c => In (fst c) (map fst items) /\ In (snd c) (map fst otus'))
         calls.
Proof.
  revert otus calls. induction items as [|item items IH];
    intros otus calls; simpl.
  - intros H. injection H as <- _. constructor.
  - destruct (cluster_step global_align otus item) as [calls1 [otus1|]] eqn:E;
      [|discriminate].
    destruct (cluster_loop global_align items otus1) as [calls2 r] eqn:E2.
    intros H. injection H as <- ->.
    destruct (cluster_step_extends _ _ _ _ _ E) as (ext1 & ->).
    destruct (cluster_loop_extends _ _ _ _ _ E2) as (ext2 & ->).
    apply Forall_app. split.
    + destruct (cluster_step_calls global_align otus item) as (k & K).
      rewrite E in K. simpl in K. subst calls1.
      apply Forall_forall. intros c Hc. unfold calls_on in Hc.
      apply in_map_iff in Hc. destruct Hc as (o & <- & Ho). simpl.
      split; [now left|].
      apply in_map. rewrite <- app_assoc. apply in_or_app. left.
      rewrite <- (firstn_skipn k otus). apply in_or_app. now left.
    + eapply Forall_impl; [|exact (IH _ _ E2)].
      simpl. intros c [H1 H2]. split; [now right|exact H2].
Qed.

(** X13: in the OTU list returned, each representative has, against every
    representative before it, an identity of 97 or lower. *)
Theorem otus_are_separated (global_align : str -> str -> str * str)
  (amplicon_file : list str) (minseqlen mincount chunk_size kmer_size : Z)
  (otus : list (str * Z))
  (H : abundance_greedy_clustering global_align amplicon_file minseqlen
         mincount chunk_size kmer_size = Some otus) :
  separated global_align otus.
Proof.
  unfold abundance_greedy_clustering, abundance_greedy_clustering_run in H.
  destruct (cluster_loop global_align
              (dereplication_fulllength amplicon_file minseqlen mincount) [])
    as [calls r] eqn:E.
  simpl in H. subst r.
  apply (cluster_loop_separated _ _ _ _ _ E).
  intros [|? ?] ? ? ?; discriminate.
Qed.

Lemma otus_are_separated_witness :
  separated pad_align [(seq100_97, 3); (seq100, 2)].
Proof.
  apply (otus_are_separated pad_align cluster_file 100 2 0 0).
  vm_compute. reflexivity.
Defined.

(** X14: every candidate is accounted for: in the OTU list returned, it is a
    representative or some representative has an identity above 97 with
    it. *)
Theorem candidates_are_covered (global_align : str -> str -> str * str)
  (amplicon_file : list str) (minseqlen mincount chunk_size kmer_size : Z)
  (otus : list (str * Z))
  (H : abundance_greedy_clustering global_align amplicon_file minseqlen
         mincount chunk_size kmer_size = Some otus) :
  forall item,
    In item (dereplication_fulllength amplicon_file minseqlen mincount) ->
    In item otus \/ Exists (exceeds global_align (fst item)) otus.
Proof.
  unfold abundance_greedy_clustering, abundance_greedy_clustering_run in H.
  destruct (cluster_loop global_align
              (dereplication_fulllength amplicon_file minseqlen mincount) [])
    as [calls r] eqn:E.
  simpl in H. subst r. revert E.
  generalize (dereplication_fulllength amplicon_file minseqlen mincount)
    as items.
  generalize (@nil (str * Z)) as otus0. intros otus0 items. revert otus0 calls.
  induction items as [|item items IH]; intros otus0 calls E x Hx;
    [destruct Hx|].
  simpl in E.
  destruct (cluster_step global_align otus0 item) as [calls1 [otus1|]] eqn:E1;
    [|discriminate].
  destruct (cluster_loop global_align items otus1) as [calls2 r] eqn:E2.
  injection E as _ ->.
  destruct Hx as [<-|Hx]; [|exact (IH _ _ E2 x Hx)].
  destruct (cluster_loop_extends _ _ _ _ _ E2) as (ext & ->).
  destruct (cluster_step_cases _ _ _ _ _ E1) as [[-> _]|[-> X]].
  - left. rewrite <- app_assoc. apply in_or_app. right. now left.
  - right. apply Exists_app. now left.
Qed.

Lemma candidates_are_covered_witness :
  In (seq100_99, 2) [(seq100_97, 3); (seq100, 2)]
  \/ Exists (exceeds pad_align (fst (seq100_99, 2)))
             [(seq100_97, 3); (seq100, 2)].
Proof.
  apply (candidates_are_covered pad_align cluster_file 100 2 0 0).
  - vm_compute. reflexivity.
  - vm_compute. right. right. left. reflexivity.
Defined.

(** X15: the OTU list returned is drawn from the candidate list: every
    representative is a candidate with its count, no sequence is listed
    twice, the counts decrease along the list, and there are at most as many
    representatives as candidates. *)
Theorem otus_among_candidates (global_align : str -> str -> str * str)
  (amplicon_file : list str) (minseqlen mincount chunk_size kmer_size : Z)
  (otus : list (str * Z))
  (H : abundance_greedy_clustering global_align amplicon_file minseqlen
         mincount chunk_size kmer_size = Some otus) :
  incl otus (dereplication_fulllength amplicon_file minseqlen mincount)
  /\ NoDup (map fst otus)
  /\ StronglySorted count_desc otus
  /\ (length otus
      <= length (dereplication_fulllength amplicon_file minseqlen mincount))
     %nat.
Proof.
  unfold abundance_greedy_clustering, abundance_greedy_clustering_run in H.
  destruct (cluster_loop global_align
              (dereplication_fulllength amplicon_file minseqlen mincount) [])
    as [calls r] eqn:E.
  simpl in H. subst r.
  assert (I : incl otus
                (dereplication_fulllength amplicon_file minseqlen mincount)).
  { refine (cluster_loop_deletion global_align
              (fun l => incl l (dereplication_fulllength amplicon_file
                                  minseqlen mincount)) _ _ _ _ _ E _).
    - intros a x b Hi y Hy. apply Hi. apply in_app_or in Hy.
      apply in_or_app. simpl. tauto.
    - apply incl_refl. }
  assert (N : NoDup (map fst otus)).
  { refine (cluster_loop_deletion global_align
              (fun l => NoDup (map fst l)) _ _ _ _ _ E _).
    - intros a x b Hn. rewrite map_app in *. simpl in Hn.
      now apply NoDup_remove_1 in Hn.
    - apply dereplicate_NoDup. }
  split; [exact I|]. split; [exact N|]. split.
  - refine (cluster_loop_deletion global_align
              (StronglySorted count_desc) _ _ _ _ _ E _).
    + intros a x b. apply StronglySorted_deletion.
    + apply sorted_by_count_desc_sorted.
  - apply NoDup_incl_length; [|exact I]. now apply (NoDup_map_inv fst).
Qed.

Lemma otus_among_candidates_witness :
  incl [(seq100_97, 3); (seq100, 2)]
       (dereplication_fulllength cluster_file 100 2)
  /\ NoDup (map fst [(seq100_97, 3); (seq100, 2)])
  /\ StronglySorted count_desc [(seq100_97, 3); (seq100, 2)]
  /\ (length [(seq100_97, 3); (seq100, 2)]
      <= length (dereplication_fulllength cluster_file 100 2))%nat.
Proof.
  apply (otus_among_candidates pad_align cluster_file 100 2 0 0).
  vm_compute. reflexivity.
Defined.

(** X16: the first candidate, the most abundant sequence, meets no
    representative and is always the first representative: the OTU list
    returned and the candidate list have the same head, and the OTU list is
    empty only when the candidate list is. *)
Theorem first_candidate_is_first_otu (global_align : str -> str -> str * str)
  (amplicon_file : list str) (minseqlen mincount chunk_size kmer_size : Z)
  (otus : list (str * Z))
  (H : abundance_greedy_clustering global_align amplicon_file minseqlen
         mincount chunk_size kmer_size = Some otus) :
  hd_error otus
  = hd_error (dereplication_fulllength amplicon_file minseqlen mincount).
Proof.
  unfold abundance_greedy_clustering, abundance_greedy_clustering_run in H.
  destruct (dereplication_fulllength amplicon_file minseqlen mincount)
    as [|[sequence count] items]; simpl in H.
  - now injection H as <-.
  - destruct (cluster_loop global_align items [(sequence, count)])
      as [calls r] eqn:E.
    simpl in H. subst r.
    destruct (cluster_loop_extends _ _ _ _ _ E) as (ext & ->). reflexivity.
Qed.

Lemma first_candidate_is_first_otu_witness :
  hd_error [(seq100_97, 3); (seq100, 2)]
  = hd_error (dereplication_fulllength cluster_file 100 2).
Proof.
  apply (first_candidate_is_first_otu pad_align cluster_file 100 2 0 0).
  vm_compute. reflexivity.
Defined.

(** X17: with n candidates the scorer (and the aligner) is called at most
    n (n - 1) / 2 times, whether the run ends or is aborted. *)
Theorem scorer_calls_bound (global_align : str -> str -> str * str)
  (amplicon_file : list str) (minseqlen mincount chunk_size kmer_size : Z) :
  (2 * length (fst (abundance_greedy_clustering_run global_align
                      amplicon_file minseqlen mincount chunk_size kmer_size))
   + length (dereplication_fulllength amplicon_file minseqlen mincount)
   <= length (dereplication_fulllength amplicon_file minseqlen mincount)
      * length (dereplication_fulllength amplicon_file minseqlen mincount))
  %nat.
Proof.
  unfold abundance_greedy_clustering_run.
  pose proof (cluster_loop_calls_length global_align
                (dereplication_fulllength amplicon_file minseqlen mincount)
                []) as B.
  simpl in B. lia.
Qed.

(** X18: clustering the OTU list returned by a run gives that OTU list
    again: every representative is kept, in the same order. *)
Theorem clustering_otus_again (global_align : str -> str -> str * str)
  (items otus : list (str * Z)) (calls : list call)
  (H : cluster_loop global_align items [] = (calls, Some otus)) :
  exists calls', cluster_loop global_align otus [] = (calls', Some otus).
Proof.
  apply (cluster_loop_replay global_align otus []). simpl.
  apply (cluster_loop_separated _ _ _ _ _ H).
  intros [|? ?] ? ? ?; discriminate.
Qed.

Lemma clustering_otus_again_witness :
  exists calls',
    cluster_loop pad_align [(seq100_97, 3); (seq100, 2)] []
    = (calls', Some [(seq100_97, 3); (seq100, 2)]).
Proof.
  apply (clustering_otus_again pad_align
           [(seq100_97, 3); (seq100, 2); (seq100_99, 2)]
           [(seq100_97, 3); (seq100, 2)]
           (fst (cluster_loop pad_align
                   [(seq100_97, 3); (seq100, 2); (seq100_99, 2)] []))).
  vm_compute. reflexivity.
Defined.

(** X19: the scorer is only called on a candidate against a representative:
    in every call made by a run that ends, the first sequence is one of the
    candidates processed and the second is a representative of the OTU list
    returned. *)
Theorem calls_are_candidate_against_otu
  (global_align : str -> str -> str * str)
  (items otus : list (str * Z)) (calls : list call)
  (H : cluster_loop global_align items [] = (calls, Some otus)) :
  Forall (fun c => In (fst c) (map fst items) /\ In (snd c) (map fst otus))
         calls.
Proof. exact (cluster_loop_calls_pairs _ _ _ _ _ H). Qed.

Lemma calls_are_candidate_against_otu_witness :
  Forall (fun c =>
            In (fst c)
               (map fst [(seq100_97, 3); (seq100, 2); (seq100_99, 2)])
            /\ In (snd c) (map fst [(seq100_97, 3); (seq100, 2)]))
         [(seq100, seq100_97); (seq100_99, seq100_97); (seq100_99, seq100)].
Proof.
  apply (calls_are_candidate_against_otu pad_align
           [(seq100_97, 3); (seq100, 2); (seq100_99, 2)]
           [(seq100_97, 3); (seq100, 2)]).
  vm_compute. reflexivity.
Defined.

(** ** The writer *)

Lemma string_of_uint_no_eol (d : Decimal.uint) :
  Forall (fun c => is_eol c = false)
         (list_ascii_of_string (DecimalString.NilEmpty.string_of_uint d)).
Proof. induction d; simpl; constructor; auto. Qed.

Lemma str_of_int_no_eol (n : Z) :
  Forall (fun c => is_eol c = false) (str_of_int n).
Proof.
  unfold str_of_int, DecimalString.NilZero.string_of_int,
    DecimalString.NilZero.string_of_uint.
  destruct (Z.to_int n) as [d|d]; simpl.
  - destruct d; try apply (string_of_uint_no_eol (_ d));
      repeat constructor.
  - constructor; [reflexivity|].
    destruct d; try apply (string_of_uint_no_eol (_ d));
      repeat constructor.
Qed.

Lemma otu_header_line_no_eol (index occurrence : Z) :
  Forall (fun c => is_eol c = false) (otu_header_line index occurrence).
Proof.
  unfold otu_header_line. repeat (apply Forall_app; split);
    try apply str_of_int_no_eol; repeat constructor.
Qed.

Lemma otu_header_line_is_header (index occurrence : Z) :
  startswith_gt (strip (otu_header_line index occurrence)) = true.
Proof.
  unfold otu_header_line, strip. simpl.
  destruct (rstrip_cons ">"%char
              (list_ascii_of_string "OTU_" ++ str_of_int index
               ++ list_ascii_of_string " occurrence:" ++ str_of_int occurrence)
              eq_refl) as (y & E).
  simpl in E. rewrite E. reflexivity.
Qed.

Lemma letter_facts (c : ascii) :
  is_letter c = true ->
  isspace c = false /\ is_eol c = false /\ Ascii.eqb c ">"%char = false.
Proof.
  destruct c as [[] [] [] [] [] [] [] []]; vm_compute; intros H;
    try discriminate H; auto.
Qed.

Lemma text_lines_loop_line (l rest line : str) :
  Forall (fun c => is_eol c = false) l ->
  text_lines_loop (l ++ newline :: rest) line
  = (line ++ l) :: text_lines_loop rest [].
Proof.
  intros H. revert line. induction H as [|c l Hc _ IH]; intros line; simpl.
  - now rewrite app_nil_r.
  - unfold is_eol in Hc. apply orb_false_iff in Hc. destruct Hc as [H1 H2].
    rewrite H1, H2, IH, <- app_assoc. reflexivity.
Qed.

Lemma text_lines_terminated (ls : list str) :
  Forall (Forall (fun c => is_eol c = false)) ls ->
  text_lines (concat (map (fun l => l ++ [newline]) ls)) = ls.
Proof.
  unfold text_lines. induction 1 as [|l ls Hl _ IH]; simpl; [reflexivity|].
  rewrite <- app_assoc. simpl.
  now rewrite (text_lines_loop_line _ _ _ Hl), IH.
Qed.

Lemma join_lines_terminated (ls : list str) :
  ls <> [] ->
  join_lines ls ++ [newline] = concat (map (fun l => l ++ [newline]) ls).
Proof.
  induction ls as [|l ls IH]; [congruence|]. intros _.
  destruct ls as [|l' ls].
  - simpl. now rewrite app_nil_r.
  - change (join_lines (l :: l' :: ls))
      with (l ++ newline :: join_lines (l' :: ls)).
    rewrite <- app_assoc. simpl. rewrite <- app_assoc. simpl.
    do 2 f_equal. apply IH. discriminate.
Qed.

Lemma chunks_loop_concat (fuel width : nat) (x : str) :
  (0 < width)%nat -> (length x <= fuel)%nat ->
  concat (chunks_loop fuel width x) = x.
Proof.
  intros Hw. revert x. induction fuel as [|fuel IH]; intros x Hx.
  - destruct x; [reflexivity|simpl in Hx; lia].
  - destruct x as [|c x]; [reflexivity|].
    cbn [chunks_loop concat]. rewrite IH.
    + apply firstn_skipn.
    + rewrite length_skipn. cbn [length] in *. lia.
Qed.

Lemma chunks_loop_Forall (P : ascii -> Prop) (fuel width : nat) (x : str) :
  Forall P x -> Forall (Forall P) (chunks_loop fuel width x).
Proof.
  revert x. induction fuel as [|fuel IH]; intros x Hx; [constructor|].
  destruct x as [|c x]; [constructor|]. cbn [chunks_loop].
  constructor.
  - apply Forall_forall. intros a Ha.
    apply (proj1 (Forall_forall _ _) Hx).
    rewrite <- (firstn_skipn width (c :: x)). apply in_or_app. now left.
  - apply IH. apply Forall_forall. intros a Ha.
    apply (proj1 (Forall_forall _ _) Hx).
    rewrite <- (firstn_skipn width (c :: x)). apply in_or_app. now right.
Qed.

Lemma chunks_nonempty (width : nat) (x : str) :
  x <> [] -> chunks width x <> [].
Proof. destruct x; [congruence|]. discriminate. Qed.

Lemma otu_lines_no_eol (otus : list (str * Z)) (index : Z) :
  Forall letters_item otus ->
  Forall (Forall (fun c => is_eol c = false)) (otu_lines otus index).
Proof.
  intros H. revert index.
  induction H as [|[x c] otus [_ Hx] _ IH]; intros index; simpl;
    constructor.
  - apply otu_header_line_no_eol.
  - apply Forall_app. split; [|apply IH].
    apply chunks_loop_Forall. eapply Forall_impl; [|exact Hx].
    intros a Ha. now apply letter_facts in Ha.
Qed.

Lemma write_OTU_loop_lines (fill : str -> Z -> str) (otus : list (str * Z))
  (index : Z) :
  wraps_letters fill -> Forall letters_item otus ->
  concat (write_OTU_loop fill otus index)
  = concat (map (fun l => l ++ [newline]) (otu_lines otus index)).
Proof.
  intros W H. revert index.
  induction H as [|[x c] otus [Hne Hx] _ IH]; intros index; simpl;
    [reflexivity|].
  simpl in Hne, Hx. rewrite (W x Hx), IH, map_app, concat_app.
  rewrite (join_lines_terminated _ (chunks_nonempty 80 x Hne)).
  now rewrite <- !app_assoc.
Qed.

Lemma write_OTU_lines (fill : str -> Z -> str) (otus : list (str * Z)) :
  wraps_letters fill -> Forall letters_item otus ->
  text_lines (write_OTU fill otus) = otu_lines otus 1.
Proof.
  intros W H. unfold write_OTU.
  rewrite (write_OTU_loop_lines fill otus 1 W H).
  apply text_lines_terminated, otu_lines_no_eol, H.
Qed.

Lemma read_fasta_loop_body_then (body rest : list str) (minseqlen : Z)
  (sequence : str) :
  Forall (fun line => startswith_gt (strip line) = false) body ->
  read_fasta_loop (body ++ rest) minseqlen sequence
  = read_fasta_loop rest minseqlen (sequence ++ concat (map strip body)).
Proof.
  intros H. revert sequence.
  induction H as [|line body Hl _ IH]; intros sequence; simpl.
  - now rewrite app_nil_r.
  - now rewrite Hl, IH, app_assoc.
Qed.

Lemma letters_strip (x : str) : letters x -> strip x = x.
Proof.
  intros H. apply strip_no_space. eapply Forall_impl; [|exact H].
  intros a Ha. now apply letter_facts in Ha.
Qed.

Lemma letters_not_header (x : str) : letters x -> startswith_gt x = false.
Proof.
  intros H. destruct H as [|c x' Hc _]; [reflexivity|].
  simpl. now apply letter_facts in Hc.
Qed.

Lemma read_otu_lines (otus : list (str * Z)) (index : Z) (sequence : str) :
  Forall letters_item otus ->
  read_fasta_loop (otu_lines otus index) 0 sequence
  = yield_if 0 sequence ++ map fst otus.
Proof.
  intros H. revert index sequence.
  induction H as [|[x c] otus [Hne Hx] _ IH]; intros index sequence; simpl.
  - now rewrite app_nil_r.
  - simpl in Hne, Hx. rewrite otu_header_line_is_header. f_equal.
    pose proof (chunks_loop_Forall _ (length x) 80 x Hx) as Hc.
    fold (chunks 80 x) in Hc.
    rewrite read_fasta_loop_body_then.
    + rewrite IH. simpl. f_equal.
      assert (E : concat (map strip (chunks 80 x)) = x).
      { rewrite <- (chunks_loop_concat (length x) 80 x) at 2 by lia.
        fold (chunks 80 x). f_equal.
        rewrite <- (map_id (chunks 80 x)) at 2.
        apply map_ext_in. intros l Hl. apply letters_strip.
        exact (proj1 (Forall_forall _ _) Hc l Hl). }
      rewrite E. unfold yield_if, yields. destruct x; [congruence|].
      reflexivity.
    + apply Forall_forall. intros l Hl.
      rewrite letters_strip; apply letters_not_header || idtac;
        exact (proj1 (Forall_forall _ _) Hc l Hl).
Qed.

Lemma cut_fill_wraps : wraps_letters cut_fill.
Proof. intros x _. reflexivity. Qed.

Lemma write_OTU_loop_app (fill : str -> Z -> str) (l1 l2 : list (str * Z))
  (index : Z) :
  write_OTU_loop fill (l1 ++ l2) index
  = write_OTU_loop fill l1 index
    ++ write_OTU_loop fill l2 (index + Z.of_nat (length l1)).
Proof.
  revert index. induction l1 as [|[x c] l1 IH]; intros index.
  - simpl. now rewrite Z.add_0_r.
  - cbn [app write_OTU_loop length]. rewrite IH.
    replace (index + 1 + Z.of_nat (length l1))
      with (index + Z.of_nat (S (length l1))) by lia.
    reflexivity.
Qed.

(** X20: when the wrapper cuts a word of letters every 80 characters and the
    sequences are non-empty words of letters, the output file has, for each
    representative in the order of the OTU list, the header line
    [>OTU_i occurrence:c], with i counted from 1 and c the count, followed by
    the sequence in lines of 80 characters, and nothing else. *)
Theorem write_OTU_records (fill : str -> Z -> str) (otus : list (str * Z))
  (W : wraps_letters fill) (H : Forall letters_item otus) :
  text_lines (write_OTU fill otus) = otu_lines otus 1.
Proof. exact (write_OTU_lines fill otus W H). Qed.

Lemma write_OTU_records_witness :
  text_lines (write_OTU cut_fill [(seq100_97, 3); (seq100, 2)])
  = otu_lines [(seq100_97, 3); (seq100, 2)] 1.
Proof.
  apply (write_OTU_records cut_fill [(seq100_97, 3); (seq100, 2)]
           cut_fill_wraps).
  repeat constructor; discriminate.
Defined.

Lemma store_round_trip : gzip_round_trip store_compress store_open_rt.
Proof.
  intros text. unfold store_open_rt, store_compress. do 2 f_equal.
  rewrite map_map. rewrite <- (map_id text) at 2.
  apply map_ext. intros a. apply ascii_of_byte_of_ascii.
Qed.

(** X21: what is written reads back once compressed: under the same
    conditions, and when a compressed text opens as the lines of that text,
    the reader applied to the compressed output file yields the sequences
    of the OTU list, in order, that reach the minimum length. *)
Theorem write_OTU_read_fasta_gz (fill : str -> Z -> str)
  (gzip_compress : str -> list Byte.byte)
  (gzip_open_rt : list Byte.byte -> option (list str))
  (otus : list (str * Z)) (minseqlen : Z)
  (G : gzip_round_trip gzip_compress gzip_open_rt)
  (W : wraps_letters fill) (H : Forall letters_item otus) :
  read_fasta_gz gzip_open_rt (gzip_compress (write_OTU fill otus)) minseqlen
  = Some (filter (fun x => minseqlen <=? len x) (map fst otus)).
Proof.
  unfold read_fasta_gz. rewrite G. f_equal.
  rewrite read_fasta_filter, (write_OTU_lines fill otus W H).
  unfold read_fasta. now rewrite (read_otu_lines otus 1 [] H).
Qed.

Lemma write_OTU_read_fasta_gz_witness :
  read_fasta_gz store_open_rt
    (store_compress (write_OTU cut_fill [(seq100_97, 3); (s "ACGT", 2)])) 5
  = Some (filter (fun x => 5 <=? len x)
                 (map fst [(seq100_97, 3); (s "ACGT", 2)])).
Proof.
  apply (write_OTU_read_fasta_gz cut_fill store_compress store_open_rt
           [(seq100_97, 3); (s "ACGT", 2)] 5
           store_round_trip cut_fill_wraps).
  repeat constructor; discriminate.
Defined.

(** X22: the records are numbered in sequence: the text written for an OTU
    list in two parts is the text written for the first part followed by the
    records of the second part, numbered from one more than the length of
    the first part. *)
Theorem write_OTU_app (fill : str -> Z -> str) (l1 l2 : list (str * Z)) :
  write_OTU fill (l1 ++ l2)
  = write_OTU fill l1
    ++ concat (write_OTU_loop fill l2 (1 + Z.of_nat (length l1))).
Proof.
  unfold write_OTU. now rewrite write_OTU_loop_app, concat_app.
Qed.

(** ** The main program *)

Lemma dereplication_fulllength_degenerate (amplicon_file : list str)
  (minseqlen mincount : Z) :
  (forall x, In x (read_fasta amplicon_file 0) ->
             len x < minseqlen
             \/ occurrences (read_fasta amplicon_file 0) x < mincount) ->
  dereplication_fulllength amplicon_file minseqlen mincount = [].
Proof.
  intros H.
  destruct (dereplication_fulllength amplicon_file minseqlen mincount)
    as [|[x c] l] eqn:E; [reflexivity|exfalso].
  assert (I : In (x, c)
                (dereplication_fulllength amplicon_file minseqlen mincount))
    by (rewrite E; now left).
  unfold dereplication_fulllength in I. apply dereplicate_In in I.
  rewrite read_fasta_filter in I. destruct I as (I & -> & M).
  apply filter_In in I. destruct I as [I L]. apply Z.leb_le in L.
  rewrite occurrences_filter in M by now apply Z.leb_le.
  destruct (H x I); lia.
Qed.

(** X23: when every sequence of the input is shorter than minseqlen or
    occurs fewer than mincount times, the program ends normally and the
    output file it writes is empty. *)
Theorem main_degenerate_input (fill : str -> Z -> str)
  (global_align : str -> str -> str * str) (amplicon_file : list str)
  (minseqlen mincount : Z)
  (H : forall x, In x (read_fasta amplicon_file 0) ->
                 len x < minseqlen
                 \/ occurrences (read_fasta amplicon_file 0) x < mincount) :
  main fill global_align amplicon_file minseqlen mincount = Some [].
Proof.
  unfold main, abundance_greedy_clustering, abundance_greedy_clustering_run.
  now rewrite (dereplication_fulllength_degenerate _ _ _ H).
Qed.

Lemma main_degenerate_input_witness :
  main cut_fill pad_align sample_file 0 4 = Some [].
Proof.
  apply (main_degenerate_input cut_fill pad_align sample_file 0 4).
  intros x Hx. right. vm_compute in Hx.
  repeat (destruct Hx as [<-|Hx]; [vm_compute; reflexivity|]).
  destruct Hx.
Defined.

(** X24: end to end: when the aligner returns padded strings at least as
    long as the longer sequence, the wrapper cuts a word of letters every 80
    characters and the sequences read are words of letters, the program ends
    normally, and the lines of the output file it writes are the records of
    the OTU list returned: for each representative, in order, its header
    line numbered from 1 and its sequence in lines of 80 characters. *)
Theorem main_output_records (fill : str -> Z -> str)
  (global_align : str -> str -> str * str) (amplicon_file : list str)
  (minseqlen mincount : Z)
  (P : pads_to_longer global_align) (W : wraps_letters fill)
  (L : Forall letters (read_fasta amplicon_file minseqlen)) :
  exists otus text,
    abundance_greedy_clustering global_align amplicon_file minseqlen
      mincount 0 0 = Some otus
    /\ main fill global_align amplicon_file minseqlen mincount = Some text
    /\ text_lines text = otu_lines otus 1.
Proof.
  unfold main, abundance_greedy_clustering, abundance_greedy_clustering_run.
  destruct (cluster_loop_safe global_align P
              (dereplication_fulllength amplicon_file minseqlen mincount) []
              (dereplication_fulllength_nonempty _ _ _) (Forall_nil _))
    as (calls & otus & E & _).
  rewrite E. simpl. exists otus, (write_OTU fill otus).
  repeat split.
  apply (write_OTU_lines fill otus W).
  refine (cluster_loop_deletion global_align (Forall letters_item)
            _ _ _ _ _ E _).
  - intros a x b F. rewrite Forall_app in *. destruct F as [Fa Fb].
    inversion Fb; subst. now split.
  - simpl. apply Forall_forall. intros [x c] Hx.
    apply dereplicate_In in Hx. destruct Hx as [Hx _]. split; simpl.
    + now apply read_fasta_In in Hx.
    + exact (proj1 (Forall_forall _ _) L x Hx).
Qed.

Lemma main_output_records_witness :
  exists otus text,
    abundance_greedy_clustering pad_align cluster_file 100 2 0 0 = Some otus
    /\ main cut_fill pad_align cluster_file 100 2 = Some text
    /\ text_lines text = otu_lines otus 1.
Proof.
  apply (main_output_records cut_fill pad_align cluster_file 100 2
           pad_align_pads cut_fill_wraps).
  apply Forall_forall. intros x Hx. vm_compute in Hx.
  repeat (destruct Hx as [<-|Hx]; [repeat constructor|]).
  destruct Hx.
Defined.
